(** * Session management of the medical transcription relay (backend/main.go)

    A shallow embedding of the Go backend: the transcript reconciler
    ([processTranscriptEvent]), the archiver ([saveToS3]), the three
    cooperating tasks of [handleConnection], and the configuration of the
    process ([loadConfig], [wsHandler]), together with the facts about them
    that the specification states and further facts read off the code.

    Go strings are byte sequences: they are modelled by [string] (a list of
    8-bit characters).  The Go standard library functions the program calls
    ([strings.Contains], [strings.Replace], [strings.TrimSpace],
    [strings.Join], [strconv.ParseInt]) are modelled after their documented
    behaviour in the modules [utf8], [unicode], [strings] and [strconv]
    below. *)

From Stdlib Require Import ZArith List String Ascii Bool Arith Lia.
From Stdlib Require Import DecimalString DecimalPos DecimalZ.
Import ListNotations.

Local Open Scope string_scope.
Local Open Scope bool_scope.

(* ================================================================== *)
(** ** The Go standard library functions used by the program          *)
(* ================================================================== *)

(** Bytes of a string, dropping and taking prefixes. *)
Definition byte_val (c : ascii) : Z := Z.of_N (N_of_ascii c).

Fixpoint drop (n : nat) (s : string) : string :=
  match n, s with
  | O, _ => s
  | S _, EmptyString => EmptyString
  | S k, String _ t => drop k t
  end.

Fixpoint take (n : nat) (s : string) : string :=
  match n, s with
  | O, _ => EmptyString
  | S _, EmptyString => EmptyString
  | S k, String c t => String c (take k t)
  end.

Fixpoint rev_string (s : string) : string :=
  match s with
  | EmptyString => EmptyString
  | String c t => rev_string t ++ String c EmptyString
  end.

Module utf8.
Local Open Scope Z_scope.

Definition RuneError : Z := 0xFFFD.
Definition RuneSelf : Z := 0x80.

(** Size of the encoding announced by a leading byte, with the range
    accepted for the second byte; [None] for a byte that cannot start a
    multi-byte encoding (the table [first] and [acceptRanges] of Go). *)
Definition first (s0 : Z) : option (nat * Z * Z) :=
  if (0xC2 <=? s0) && (s0 <=? 0xDF) then Some (2%nat, 0x80, 0xBF)
  else if s0 =? 0xE0 then Some (3%nat, 0xA0, 0xBF)
  else if s0 =? 0xED then Some (3%nat, 0x80, 0x9F)
  else if (0xE1 <=? s0) && (s0 <=? 0xEF) then Some (3%nat, 0x80, 0xBF)
  else if s0 =? 0xF0 then Some (4%nat, 0x90, 0xBF)
  else if (0xF1 <=? s0) && (s0 <=? 0xF3) then Some (4%nat, 0x80, 0xBF)
  else if s0 =? 0xF4 then Some (4%nat, 0x80, 0x8F)
  else None.

Definition is_cont (b : Z) : bool := (0x80 <=? b) && (b <=? 0xBF).

(** [utf8.DecodeRuneInString]: the first rune of [s] and its width in
    bytes; an invalid encoding gives the pair of [RuneError] and 1, the
    empty string the pair of [RuneError] and 0. *)
Definition DecodeRuneInString (s : string) : Z * nat :=
  match s with
  | EmptyString => (RuneError, 0%nat)
  | String c0 t0 =>
      let s0 := byte_val c0 in
      if (s0 <? RuneSelf) then (s0, 1%nat)
      else
        match first s0, t0 with
        | Some (sz, lo, hi), String c1 t1 =>
            let s1 := byte_val c1 in
            if (s1 <? lo) || (hi <? s1) then (RuneError, 1%nat)
            else if (sz <=? 2)%nat then
              (Z.lor (Z.shiftl (Z.land s0 0x1F) 6) (Z.land s1 0x3F), 2%nat)
            else
              match t1 with
              | String c2 t2 =>
                  let s2 := byte_val c2 in
                  if negb (is_cont s2) then (RuneError, 1%nat)
                  else if (sz <=? 3)%nat then
                    (Z.lor (Z.lor (Z.shiftl (Z.land s0 0x0F) 12)
                                  (Z.shiftl (Z.land s1 0x3F) 6))
                           (Z.land s2 0x3F), 3%nat)
                  else
                    match t2 with
                    | String c3 _ =>
                        let s3 := byte_val c3 in
                        if negb (is_cont s3) then (RuneError, 1%nat)
                        else
                          (Z.lor (Z.lor (Z.lor (Z.shiftl (Z.land s0 0x07) 18)
                                               (Z.shiftl (Z.land s1 0x3F) 12))
                                        (Z.shiftl (Z.land s2 0x3F) 6))
                                 (Z.land s3 0x3F), 4%nat)
                    | EmptyString => (RuneError, 1%nat)
                    end
              | EmptyString => (RuneError, 1%nat)
              end
        | _, _ => (RuneError, 1%nat)
        end
  end.

(** [utf8.RuneStart]: the byte is not a continuation byte. *)
Definition RuneStart (b : Z) : bool := negb (Z.land b 0xC0 =? 0x80).

(** Backwards search of [DecodeLastRuneInString] for the start of the last
    rune: [r] is the string reversed, its head the last byte; the search
    looks at the three bytes before the last one and returns how many bytes
    the candidate encoding spans. *)
Fixpoint find_start (r : string) (k : nat) (span : nat) : nat :=
  match k, r with
  | S k', String c t =>
      if RuneStart (byte_val c) then S span else find_start t k' (S span)
  | O, String _ _ => S span
  | _, EmptyString => span
  end.

(** [utf8.DecodeLastRuneInString]: the last rune of [s] and its width. *)
Definition DecodeLastRuneInString (s : string) : Z * nat :=
  match rev_string s with
  | EmptyString => (RuneError, 0%nat)
  | String c t =>
      let r := byte_val c in
      if (r <? RuneSelf) then (r, 1%nat)
      else
        let span := find_start t 3%nat 1%nat in
        let '(r', size) := DecodeRuneInString (drop (length s - span)%nat s) in
        if (size =? span)%nat then (r', size) else (RuneError, 1%nat)
  end.

End utf8.

Module unicode.
Local Open Scope Z_scope.

(** [unicode.IsSpace]: the Latin-1 spaces and the characters of the
    Unicode property White_Space. *)
Definition IsSpace (r : Z) : bool :=
  if (r <=? 0xFF) then
    (r =? 0x09) || (r =? 0x0A) || (r =? 0x0B) || (r =? 0x0C)
    || (r =? 0x0D) || (r =? 0x20) || (r =? 0x85) || (r =? 0xA0)
  else
    (r =? 0x1680) || ((0x2000 <=? r) && (r <=? 0x200A))
    || (r =? 0x2028) || (r =? 0x2029) || (r =? 0x202F)
    || (r =? 0x205F) || (r =? 0x3000).

End unicode.

Module strings.

(** [strings.Index]: the byte offset of the first occurrence of [substr]
    in [s], [None] for Go's -1. *)
Fixpoint Index (s substr : string) : option nat :=
  if prefix substr s then Some 0
  else
    match s with
    | EmptyString => None
    | String _ t => option_map S (Index t substr)
    end.

(** [strings.Contains(s, substr)] is [Index(s, substr) >= 0]. *)
Definition Contains (s substr : string) : bool :=
  match Index s substr with
  | Some _ => true
  | None => false
  end.

(** The replacement loop of [strings.Replace] for a non-empty [old]: at
    most [n] times, copy up to the next occurrence of [old], write [new]
    and continue behind the occurrence. *)
Fixpoint replace_loop (n : nat) (s old new : string) : string :=
  match n with
  | O => s
  | S k =>
      match Index s old with
      | Some j => take j s ++ new ++ replace_loop k (drop (j + length old) s) old new
      | None => s
      end
  end.

(** The same loop for the empty [old], which matches after every rune. *)
Fixpoint replace_runes (n : nat) (s new : string) : string :=
  match n with
  | O => s
  | S k =>
      match s with
      | EmptyString => EmptyString
      | String _ _ =>
          let wid := snd (utf8.DecodeRuneInString s) in
          take wid s ++ new ++ replace_runes k (drop wid s) new
      end
  end.

(** [strings.Replace(s, old, new, n)]: [s] with the first [n]
    non-overlapping occurrences of [old] replaced by [new]; no limit when
    [n < 0]. *)
Definition Replace (s old new : string) (n : Z) : string :=
  if (old =? new) || (n =? 0)%Z then s
  else
    let limit := if (n <? 0)%Z then S (length s) else Z.to_nat n in
    match old with
    | EmptyString => new ++ replace_runes (pred limit) s new
    | String _ _ => replace_loop limit s old new
    end.

(** [strings.TrimLeftFunc]: drop leading runes while [f] holds.  Each
    round drops at least one byte, so [length s] rounds are enough. *)
Fixpoint trim_left (fuel : nat) (f : Z -> bool) (s : string) : string :=
  match fuel, s with
  | S k, String _ _ =>
      let '(r, wid) := utf8.DecodeRuneInString s in
      if f r then trim_left k f (drop wid s) else s
  | _, _ => s
  end.

Definition TrimLeftFunc (s : string) (f : Z -> bool) : string :=
  trim_left (length s) f s.

(** [strings.TrimRightFunc]: drop trailing runes while [f] holds. *)
Fixpoint trim_right (fuel : nat) (f : Z -> bool) (s : string) : string :=
  match fuel, s with
  | S k, String _ _ =>
      let '(r, wid) := utf8.DecodeLastRuneInString s in
      if f r then trim_right k f (take (length s - wid) s) else s
  | _, _ => s
  end.

Definition TrimRightFunc (s : string) (f : Z -> bool) : string :=
  trim_right (length s) f s.

(** [strings.TrimSpace]: leading and trailing white space, as defined by
    Unicode, removed. *)
Definition TrimSpace (s : string) : string :=
  TrimRightFunc (TrimLeftFunc s unicode.IsSpace) unicode.IsSpace.

(** [strings.Join]. *)
Fixpoint Join (elems : list string) (sep : string) : string :=
  match elems with
  | [] => EmptyString
  | [e] => e
  | e :: rest => e ++ sep ++ Join rest sep
  end.

End strings.

Module strconv.
Local Open Scope Z_scope.

(** The errors of [strconv.NumError]. *)
Inductive Err := ErrSyntax | ErrRange | ErrBitSize.

Definition uint64 (x : Z) : Z := x mod 2 ^ 64.

(** [maxUint64/10 + 1]: from here on [n * 10] overflows. *)
Definition cutoff10 : Z := (2 ^ 64 - 1) / 10 + 1.

(** The loop of [strconv.ParseUint] in base 10 over the bytes of the
    numeral: a byte that is no decimal digit is a syntax error (a letter is
    a digit of value 10 or more, an underscore is accepted in base 0 only),
    a value beyond [maxVal] a range error, returned at once with
    [maxVal]. *)
Fixpoint parse_digits (s : string) (maxVal n : Z) : Z * option Err :=
  match s with
  | EmptyString => (n, None)
  | String c t =>
      let b := byte_val c in
      if (48 <=? b) && (b <=? 57) then
        let d := b - 48 in
        if n >=? cutoff10 then (maxVal, Some ErrRange)
        else
          let n := uint64 (n * 10) in
          let n1 := uint64 (n + d) in
          if (n1 <? n) || (maxVal <? n1) then (maxVal, Some ErrRange)
          else parse_digits t maxVal n1
      else (0, Some ErrSyntax)
  end.

(** [strconv.ParseUint(s, 10, bitSize)]. *)
Definition ParseUint (s : string) (bitSize : Z) : Z * option Err :=
  if (s =? "")%string then (0, Some ErrSyntax)
  else
    let bitSize := if bitSize =? 0 then 64 else bitSize in
    if (bitSize <? 0) || (64 <? bitSize) then (0, Some ErrBitSize)
    else parse_digits s (2 ^ bitSize - 1) 0.

(** [strconv.ParseInt(s, 10, bitSize)]: an optional sign, then the
    unsigned numeral, then the range of a signed integer of [bitSize]
    bits. *)
Definition ParseInt (s : string) (bitSize : Z) : Z * option Err :=
  match s with
  | EmptyString => (0, Some ErrSyntax)
  | String c t =>
      let neg := (byte_val c =? 45) in
      let digits := if (byte_val c =? 43) || neg then t else s in
      let '(un, err) := ParseUint digits bitSize in
      match err with
      | Some ErrSyntax => (0, err)
      | Some ErrBitSize => (0, err)
      | _ =>
          let bitSize := if bitSize =? 0 then 64 else bitSize in
          let cutoff := 2 ^ (bitSize - 1) in
          if negb neg && (un >=? cutoff) then (cutoff - 1, Some ErrRange)
          else if neg && (un >? cutoff) then (- cutoff, Some ErrRange)
          else (if neg then - un else un, None)
      end
  end.

End strconv.

(* ================================================================== *)
(** ** Data model                                                      *)
(* ================================================================== *)

(** The JSON messages of the wire protocol ([WSMessage]).  The field [Type]
    of the Go struct is written [Type_]. *)
Record WSMessage := {
  Type_ : string;
  Text : string;
  Key : string;
  Action : string
}.

(** The part of [Config] the session code reads. *)
Record Config := {
  S3Bucket : string;
  S3Prefix : string
}.

(** The recognition service's result types
    ([types.MedicalTranscript] and below); [Transcript] is a [*string]. *)
Record MedicalAlternative := {
  Transcript : option string
}.

Record MedicalResult := {
  Alternatives : list MedicalAlternative;
  IsPartial : bool
}.

Record MedicalTranscript := {
  Results : list MedicalResult
}.

(** [aws.ToString]: the empty string for a nil pointer. *)
Definition ToString (p : option string) : string :=
  match p with
  | Some v => v
  | None => EmptyString
  end.

(** A [PutObject] call on the storage client. *)
Record PutObjectInput := {
  Bucket : string;
  ObjectKey : string;
  Body : string;
  ContentType : string
}.

(** [TranscriptionSession].  The external handles are modelled by what the
    program did to them: [conn] is the sequence of messages given to
    [conn.WriteJSON], [s3Client] the sequence of [PutObject] calls, each with
    whether it failed, and [ctx] tells whether the session context has been
    cancelled. *)
Record TranscriptionSession := {
  conn : list WSMessage;
  s3Client : list (PutObjectInput * bool);
  config : Config;
  transcripts : list string;
  lastTranscript : string;
  ctx : bool
}.

Definition set_conn (c : list WSMessage) (s : TranscriptionSession) :=
  {| conn := c; s3Client := s3Client s; config := config s;
     transcripts := transcripts s; lastTranscript := lastTranscript s;
     ctx := ctx s |}.

Definition set_s3Client (c : list (PutObjectInput * bool)) (s : TranscriptionSession) :=
  {| conn := conn s; s3Client := c; config := config s;
     transcripts := transcripts s; lastTranscript := lastTranscript s;
     ctx := ctx s |}.

Definition set_transcripts (t : list string) (s : TranscriptionSession) :=
  {| conn := conn s; s3Client := s3Client s; config := config s;
     transcripts := t; lastTranscript := lastTranscript s;
     ctx := ctx s |}.

Definition set_lastTranscript (t : string) (s : TranscriptionSession) :=
  {| conn := conn s; s3Client := s3Client s; config := config s;
     transcripts := transcripts s; lastTranscript := t;
     ctx := ctx s |}.

Definition set_ctx (b : bool) (s : TranscriptionSession) :=
  {| conn := conn s; s3Client := s3Client s; config := config s;
     transcripts := transcripts s; lastTranscript := lastTranscript s;
     ctx := b |}.

(** The session built by [wsHandler]: no segment, empty [lastTranscript]. *)
Definition newSession (cfg : Config) : TranscriptionSession :=
  {| conn := []; s3Client := []; config := cfg;
     transcripts := []; lastTranscript := ""; ctx := false |}.

(* ================================================================== *)
(** ** Client messages                                                 *)
(* ================================================================== *)

(** [sendMessage]: one [WriteJSON] on the connection (a failed write is
    only logged). *)
Definition sendMessage (msg : WSMessage) (s : TranscriptionSession)
  : TranscriptionSession :=
  set_conn (conn s ++ [msg]) s.

Definition sendError (errorMsg : string) (s : TranscriptionSession)
  : TranscriptionSession :=
  sendMessage {| Type_ := "error"; Text := errorMsg; Key := ""; Action := "" |} s.

(* ================================================================== *)
(** ** The transcript reconciler: [processTranscriptEvent]             *)
(* ================================================================== *)

(** The loop
    [for i := len(s.transcripts) - 1; i >= 0 && i >= len(s.transcripts)-3; i--]
    entered with [i = k - 1].  It answers the segment it breaks on (the one
    its log line names), [None] when it runs to its end. *)
Fixpoint scanRecent (text : string) (ts : list string) (k : nat) : option string :=
  match k with
  | O => None
  | S i =>
      if (Z.of_nat i >=? Z.of_nat (List.length ts) - 3)%Z then
        match nth_error ts i with
        | Some seg =>
            if strings.Contains text seg then Some seg
            else scanRecent text ts i
        | None => None
        end
      else None
  end.

(** The duplicate check made under the lock for a final [text]: the flag
    [isDuplicate] and the value of [text] after it. *)
Definition checkDuplicate (text : string) (s : TranscriptionSession)
  : bool * string :=
  if negb (lastTranscript s =? "") then
    if text =? lastTranscript s then (true, text)
    else if strings.Contains text (lastTranscript s) then
      let newPart :=
        strings.TrimSpace (strings.Replace text (lastTranscript s) "" 1) in
      if negb (newPart =? "") then (false, newPart) else (true, text)
    else if (0 <? List.length (transcripts s))%nat then
      match scanRecent text (transcripts s) (List.length (transcripts s)) with
      | Some _ => (true, text)
      | None => (false, text)
      end
    else (false, text)
  else (false, text).

(** The branch [!result.IsPartial] for a non-empty [text]. *)
Definition processFinal (text : string) (s : TranscriptionSession)
  : TranscriptionSession :=
  let '(isDuplicate, text) := checkDuplicate text s in
  let s :=
    if negb isDuplicate
    then set_lastTranscript text (set_transcripts (transcripts s ++ [text]) s)
    else s in
  if negb isDuplicate
  then sendMessage {| Type_ := "final"; Text := text; Key := ""; Action := "" |} s
  else s.

(** The body of the loop over [event.Results]. *)
Definition processResult (result : MedicalResult) (s : TranscriptionSession)
  : TranscriptionSession :=
  match Alternatives result with
  | alternative :: _ =>
      let text := ToString (Transcript alternative) in
      if text =? "" then s
      else if negb (IsPartial result) then processFinal text s
      else sendMessage {| Type_ := "partial"; Text := text; Key := ""; Action := "" |} s
  | [] => s
  end.

Definition processTranscriptEvent (event : MedicalTranscript)
  (s : TranscriptionSession) : TranscriptionSession :=
  fold_left (fun s result => processResult result s) (Results event) s.

(** A result that carries the final text [T]. *)
Definition finalResult (T : string) : MedicalResult :=
  {| Alternatives := [ {| Transcript := Some T |} ]; IsPartial := false |}.

(** A result that carries the partial text [text]. *)
Definition partialResult (text : string) : MedicalResult :=
  {| Alternatives := [ {| Transcript := Some text |} ]; IsPartial := true |}.

(** An event whose one result carries the final text [T]. *)
Definition finalEvent (T : string) : MedicalTranscript :=
  {| Results := [finalResult T] |}.

(* ================================================================== *)
(** ** The archiver: [saveToS3]                                        *)
(* ================================================================== *)

(** [timestamp] is [time.Now().Format("2006-01-02_15-04-05")] and [putErr]
    tells whether the [PutObject] call, if it is made, fails. *)
Definition saveToS3 (timestamp : string) (putErr : bool)
  (s : TranscriptionSession) : TranscriptionSession :=
  let fullText := strings.Join (transcripts s) " " in
  if fullText =? "" then s
  else
    let key := S3Prefix (config s) ++ "/transcription_" ++ timestamp ++ ".txt" in
    let input := {| Bucket := S3Bucket (config s); ObjectKey := key;
                    Body := fullText; ContentType := "text/plain" |} in
    let s := set_s3Client (s3Client s ++ [(input, putErr)]) s in
    if putErr then sendError "Failed to save transcription" s
    else sendMessage {| Type_ := "saved"; Text := ""; Key := key; Action := "" |} s.

(* ================================================================== *)
(** ** The session: [handleConnection] and its two goroutines          *)
(* ================================================================== *)

(** An audio frame is a [[]byte]. *)
Definition AudioFrame := list Byte.byte.

(** The buffered channel [audioChan]: its buffer, oldest frame first, and
    whether it has been closed. *)
Record Chan := {
  buf : list AudioFrame;
  closed : bool
}.

(** [make(chan []byte, 100)]. *)
Definition audioChanCap : nat := 100.

(** Where [handleConnection] stands. *)
Inductive MainPC :=
| AtStart      (* before StartMedicalStreamTranscription *)
| AtRead       (* in the loop, at conn.ReadMessage *)
| AtClose      (* after the loop, at close(audioChan) *)
| AtCancel     (* at s.cancel() *)
| AtWaitDone   (* at <-doneChan *)
| AtSave       (* at the test len(s.transcripts) > 0 *)
| Returned.

Inductive TaskPC := NotStarted | Running | Exited.

(** What the recognition event stream delivers: a transcript event, whose
    [Transcript] may be nil, or an event of another type. *)
Inductive StreamEvent :=
| TranscriptEvent (t : option MedicalTranscript)
| OtherEvent.

(** The three cases of the [select] that forwards a binary message. *)
Inductive SelectCase := CaseSend | CaseCtxDone | CaseDefault.

Record System := {
  session : TranscriptionSession;
  mainPC : MainPC;
  events : TaskPC;          (* handleTranscriptionEvents *)
  sender : TaskPC;          (* sendAudioToTranscribe *)
  audioChan : Chan;
  doneChan : bool;          (* closed? *)
  upstream : list AudioFrame  (* the AudioChunk of every eventStream.Send *)
}.

Definition set_session (x : TranscriptionSession) (g : System) :=
  {| session := x; mainPC := mainPC g; events := events g; sender := sender g;
     audioChan := audioChan g; doneChan := doneChan g; upstream := upstream g |}.

Definition set_mainPC (x : MainPC) (g : System) :=
  {| session := session g; mainPC := x; events := events g; sender := sender g;
     audioChan := audioChan g; doneChan := doneChan g; upstream := upstream g |}.

Definition set_events (x : TaskPC) (g : System) :=
  {| session := session g; mainPC := mainPC g; events := x; sender := sender g;
     audioChan := audioChan g; doneChan := doneChan g; upstream := upstream g |}.

Definition set_sender (x : TaskPC) (g : System) :=
  {| session := session g; mainPC := mainPC g; events := events g; sender := x;
     audioChan := audioChan g; doneChan := doneChan g; upstream := upstream g |}.

Definition set_audioChan (x : Chan) (g : System) :=
  {| session := session g; mainPC := mainPC g; events := events g; sender := sender g;
     audioChan := x; doneChan := doneChan g; upstream := upstream g |}.

Definition set_doneChan (x : bool) (g : System) :=
  {| session := session g; mainPC := mainPC g; events := events g; sender := sender g;
     audioChan := audioChan g; doneChan := x; upstream := upstream g |}.

Definition set_upstream (x : list AudioFrame) (g : System) :=
  {| session := session g; mainPC := mainPC g; events := events g; sender := sender g;
     audioChan := audioChan g; doneChan := doneChan g; upstream := x |}.

(** The state in which [wsHandler] calls [handleConnection]. *)
Definition init (cfg : Config) : System :=
  {| session := newSession cfg; mainPC := AtStart;
     events := NotStarted; sender := NotStarted;
     audioChan := {| buf := []; closed := false |};
     doneChan := false; upstream := [] |}.

(** One atomic step of one of the three tasks.  A label names the step and
    carries what the environment answers (the outcome of an external call,
    the message read, the event received) and, where a [select] has several
    cases that can proceed, the case taken.  [conn.ReadMessage] returns text
    and binary messages only. *)
Inductive MainLabel :=
| StartStream (err : bool)
| ReadError
| ReadText (msg : option WSMessage)   (* None: json.Unmarshal failed *)
| ReadBinary (message : AudioFrame) (c : SelectCase)
| CloseAudio
| Cancel
| WaitDone
| Save (timestamp : string) (putErr : bool).

Inductive EventsLabel :=
| EventsCtxDone
| EventsRecv (e : StreamEvent)
| EventsClosed.

Inductive SenderLabel :=
| SenderRecv (sendErr : bool)
| SenderClosed
| SenderDone
| SenderCtxDone.

Inductive Label :=
| Main (l : MainLabel)
| Events (l : EventsLabel)
| Sender (l : SenderLabel).

Coercion Main : MainLabel >-> Label.
Coercion Events : EventsLabel >-> Label.
Coercion Sender : SenderLabel >-> Label.

Definition guard (b : bool) (g : System) : option System :=
  if b then Some g else None.

Definition at_pc (g : System) (pc : MainPC) : bool :=
  match mainPC g, pc with
  | AtStart, AtStart | AtRead, AtRead | AtClose, AtClose | AtCancel, AtCancel
  | AtWaitDone, AtWaitDone | AtSave, AtSave | Returned, Returned => true
  | _, _ => false
  end.

Definition running (t : TaskPC) : bool :=
  match t with
  | Running => true
  | _ => false
  end.

(** The [select] of the read loop on a binary [message]: the send case can
    proceed when the buffer has room, the [ctx.Done()] case when the context
    is cancelled, the default case only when no other can. *)
Definition forwardAudio (message : AudioFrame) (c : SelectCase) (g : System)
  : option System :=
  let room := (List.length (buf (audioChan g)) <? audioChanCap)%nat in
  let cancelled := ctx (session g) in
  match c with
  | CaseSend =>
      guard room
        (set_audioChan {| buf := buf (audioChan g) ++ [message];
                          closed := closed (audioChan g) |} g)
  | CaseCtxDone => guard cancelled g
  | CaseDefault => guard (negb room && negb cancelled) g
  end.

(** [handleConnection], step by step: the start of the stream and of the two
    goroutines, the read loop, and the clean-up after it. *)
Definition handleConnection (l : MainLabel) (g : System) : option System :=
  match l with
  | StartStream err =>
      if at_pc g AtStart then
        if err
        then Some (set_mainPC Returned
                     (set_session (sendError "Failed to start transcription" (session g)) g))
        else Some (set_mainPC AtRead (set_events Running (set_sender Running g)))
      else None
  | ReadError =>
      guard (at_pc g AtRead) (set_mainPC AtClose g)
  | ReadText msg =>
      if at_pc g AtRead then
        match msg with
        | Some m =>
            if (Type_ m =? "control") && (Action m =? "stop")
            then Some (set_mainPC AtClose g)
            else Some g
        | None => Some g
        end
      else None
  | ReadBinary message c =>
      if at_pc g AtRead then forwardAudio message c g else None
  | CloseAudio =>
      guard (at_pc g AtClose)
        (set_mainPC AtCancel
           (set_audioChan {| buf := buf (audioChan g); closed := true |} g))
  | Cancel =>
      guard (at_pc g AtCancel)
        (set_mainPC AtWaitDone (set_session (set_ctx true (session g)) g))
  | WaitDone =>
      guard (at_pc g AtWaitDone && doneChan g) (set_mainPC AtSave g)
  | Save timestamp putErr =>
      if at_pc g AtSave then
        if (0 <? List.length (transcripts (session g)))%nat
        then Some (set_mainPC Returned
                     (set_session (saveToS3 timestamp putErr (session g)) g))
        else Some (set_mainPC Returned g)
      else None
  end.

(** The exit of [handleTranscriptionEvents]: its deferred [close(done)]. *)
Definition eventsExit (g : System) : System :=
  set_doneChan true (set_events Exited g).

(** [handleTranscriptionEvents]: one round of its [select]. *)
Definition handleTranscriptionEvents (l : EventsLabel) (g : System)
  : option System :=
  if running (events g) then
    match l with
    | EventsCtxDone => guard (ctx (session g)) (eventsExit g)
    | EventsRecv (TranscriptEvent (Some t)) =>
        Some (set_session (processTranscriptEvent t (session g)) g)
    | EventsRecv _ => Some g
    | EventsClosed => Some (eventsExit g)
    end
  else None.

(** [sendAudioToTranscribe]: one round of its [select].  The receive from
    [audioChan] yields the oldest frame waiting and, once the channel is
    closed and drained, the closure; [upstream] records the chunk of every
    call of [eventStream.Send]. *)
Definition sendAudioToTranscribe (l : SenderLabel) (g : System)
  : option System :=
  if running (sender g) then
    match l with
    | SenderRecv sendErr =>
        match buf (audioChan g) with
        | audio :: rest =>
            let g := set_audioChan {| buf := rest; closed := closed (audioChan g) |} g in
            let g := set_upstream (upstream g ++ [audio]) g in
            Some (if sendErr then set_sender Exited g else g)
        | [] => None
        end
    | SenderClosed =>
        match buf (audioChan g) with
        | [] =>
            guard (closed (audioChan g))
              (set_sender Exited (set_upstream (upstream g ++ [[]]) g))
        | _ :: _ => None
        end
    | SenderDone => guard (doneChan g) (set_sender Exited g)
    | SenderCtxDone => guard (ctx (session g)) (set_sender Exited g)
    end
  else None.

(** The steps of the session.  Each is atomic; this loses no interleaving
    that matters here, since the segments and the connection are written by
    one task at a time: by [handleConnection] before it starts the
    goroutines and after [<-doneChan], by the event task in between, and
    never by the sender. *)
Definition step (l : Label) (g : System) : option System :=
  match l with
  | Main l => handleConnection l g
  | Events l => handleTranscriptionEvents l g
  | Sender l => sendAudioToTranscribe l g
  end.

(** An execution: the steps of a list of labels, one after the other;
    [None] when one of them cannot be taken. *)
Fixpoint run (ls : list Label) (g : System) : option System :=
  match ls with
  | [] => Some g
  | l :: ls' =>
      match step l g with
      | Some g' => run ls' g'
      | None => None
      end
  end.

(* ================================================================== *)
(** ** The process: [loadConfig] and [wsHandler]                       *)
(* ================================================================== *)

Module Process.

(** The struct [Config] with all its fields. *)
Record Config := {
  AWSAccessKeyID : string;
  AWSSecretAccessKey : string;
  TranscribeRegion : string;
  S3Region : string;
  S3Bucket : string;
  S3Prefix : string;
  TranscribeLanguage : string;
  TranscribeSpecialty : string;
  TranscribeType : string;
  SampleRateHz : Z
}.

(** The environment of the process, after [godotenv.Load]: the variables
    that are set, with their values. *)
Definition Environ := string -> option string.

(** [os.Getenv]: the empty string for a variable that is not set. *)
Definition Getenv (env : Environ) (key : string) : string :=
  match env key with
  | Some value => value
  | None => EmptyString
  end.

Definition getEnvOrDefault (env : Environ) (key defaultValue : string) : string :=
  let value := Getenv env key in
  if negb (value =? "") then value else defaultValue.

(** The conversion [int32(x)] of an [int64]. *)
Definition int32 (x : Z) : Z := ((x + 2 ^ 31) mod 2 ^ 32 - 2 ^ 31)%Z.

(** [loadConfig]; the error it returns beside the configuration is always
    nil. *)
Definition loadConfig (env : Environ) : Config :=
  let '(parsed, err) := strconv.ParseInt (Getenv env "SAMPLE_RATE_HZ") 32 in
  let sampleRate :=
    match err with
    | Some _ => 16000%Z
    | None => parsed
    end in
  {| AWSAccessKeyID := Getenv env "AWS_ACCESS_KEY_ID";
     AWSSecretAccessKey := Getenv env "AWS_SECRET_ACCESS_KEY";
     TranscribeRegion := getEnvOrDefault env "TRANSCRIBE_REGION" "us-east-1";
     S3Region := getEnvOrDefault env "S3_BUCKET_REGION" "us-east-1";
     S3Bucket := Getenv env "S3_BUCKET";
     S3Prefix := getEnvOrDefault env "S3_PREFIX" "medical-transcriptions";
     TranscribeLanguage := getEnvOrDefault env "TRANSCRIBE_LANGUAGE_CODE" "en-US";
     TranscribeSpecialty := getEnvOrDefault env "TRANSCRIBE_SPECIALTY" "PRIMARYCARE";
     TranscribeType := getEnvOrDefault env "TRANSCRIBE_TYPE" "DICTATION";
     SampleRateHz := int32 sampleRate |}.

(** What [wsHandler] meets on a request: whether the upgrade to a
    WebSocket fails, the query parameters [specialty] and [type] (empty when
    absent), and whether loading the AWS configuration fails for the
    recognition client or for the storage client. *)
Record Request := {
  upgradeErr : bool;
  specialtyParam : string;
  typeParam : string;
  transcribeConfigErr : bool;
  s3ConfigErr : bool
}.

(** [wsHandler] up to the call of [handleConnection]: the configuration
    of the session, a copy of [cfg] with the overrides of the request, or
    [None] when the handler returns before it has a session. *)
Definition wsHandler (r : Request) (cfg : Config) : option Config :=
  if upgradeErr r then None
  else
    let specialty :=
      if specialtyParam r =? "" then TranscribeSpecialty cfg else specialtyParam r in
    let transcribeType :=
      if typeParam r =? "" then TranscribeType cfg else typeParam r in
    if transcribeConfigErr r then None
    else if s3ConfigErr r then None
    else
      Some {| AWSAccessKeyID := AWSAccessKeyID cfg;
              AWSSecretAccessKey := AWSSecretAccessKey cfg;
              TranscribeRegion := TranscribeRegion cfg;
              S3Region := S3Region cfg;
              S3Bucket := S3Bucket cfg;
              S3Prefix := S3Prefix cfg;
              TranscribeLanguage := TranscribeLanguage cfg;
              TranscribeSpecialty := specialty;
              TranscribeType := transcribeType;
              SampleRateHz := SampleRateHz cfg |}.

(** [StartMedicalStreamTranscriptionInput] as [handleConnection] fills
    it in. *)
Record StreamInput := {
  LanguageCode : string;
  MediaSampleRateHertz : Z;
  MediaEncoding : string;
  Specialty : string;
  StreamType : string;
  EnableChannelIdentification : bool;
  NumberOfChannels : Z
}.

Definition streamInput (config : Config) : StreamInput :=
  {| LanguageCode := TranscribeLanguage config;
     MediaSampleRateHertz := SampleRateHz config;
     MediaEncoding := "pcm";
     Specialty := TranscribeSpecialty config;
     StreamType := TranscribeType config;
     EnableChannelIdentification := true;
     NumberOfChannels := 2 |}.

End Process.

(** The fields of the configuration that the session code of this model
    reads, and the state in which [wsHandler] calls [handleConnection]. *)
Definition sessionConfig (config : Process.Config) : Config :=
  {| S3Bucket := Process.S3Bucket config; S3Prefix := Process.S3Prefix config |}.

Definition serve (env : Process.Environ) (r : Process.Request) : option System :=
  option_map (fun config => init (sessionConfig config))
             (Process.wsHandler r (Process.loadConfig env)).

(* ================================================================== *)
(** ** Vocabulary of the statements                                    *)
(* ================================================================== *)

Definition finalMessage (text : string) : WSMessage :=
  {| Type_ := "final"; Text := text; Key := ""; Action := "" |}.

(** The session after [text] has been accepted: appended to the segment
    list, recorded as [lastTranscript] and sent to the client as a final
    message. *)
Definition accept (text : string) (s : TranscriptionSession) : TranscriptionSession :=
  {| conn := conn s ++ [finalMessage text]; s3Client := s3Client s;
     config := config s; transcripts := transcripts s ++ [text];
     lastTranscript := text; ctx := ctx s |}.

(** The last three segments, most recent first. *)
Definition recent3 (ts : list string) : list string :=
  rev (skipn (List.length ts - 3) ts).

(** [lastTranscript] agrees with the segment list. *)
Definition last_agrees (s : TranscriptionSession) : Prop :=
  (lastTranscript s = "" <-> transcripts s = [])
  /\ (transcripts s <> [] -> forall d, last (transcripts s) d = lastTranscript s).

(** The configuration of the examples. *)
Definition exampleConfig : Config :=
  {| S3Bucket := "bucket"; S3Prefix := "medical-transcriptions" |}.

Definition errorMessage (text : string) : WSMessage :=
  {| Type_ := "error"; Text := text; Key := ""; Action := "" |}.

Definition stopMessage : WSMessage :=
  {| Type_ := "control"; Text := ""; Key := ""; Action := "stop" |}.

(** The decimal numeral of an integer, as [strconv.Itoa] writes it: the
    digits without leading zeros, after a minus sign for a negative
    number. *)
Definition decimal (n : Z) : string := NilZero.string_of_int (Z.to_int n).

(** The value of a sequence of decimal digits read after the value [acc]. *)
Fixpoint uint_value (d : Decimal.uint) (acc : Z) : Z :=
  match d with
  | Decimal.Nil => acc
  | Decimal.D0 l => uint_value l (10 * acc)
  | Decimal.D1 l => uint_value l (10 * acc + 1)
  | Decimal.D2 l => uint_value l (10 * acc + 2)
  | Decimal.D3 l => uint_value l (10 * acc + 3)
  | Decimal.D4 l => uint_value l (10 * acc + 4)
  | Decimal.D5 l => uint_value l (10 * acc + 5)
  | Decimal.D6 l => uint_value l (10 * acc + 6)
  | Decimal.D7 l => uint_value l (10 * acc + 7)
  | Decimal.D8 l => uint_value l (10 * acc + 8)
  | Decimal.D9 l => uint_value l (10 * acc + 9)
  end.

Definition partialMessage (text : string) : WSMessage :=
  {| Type_ := "partial"; Text := text; Key := ""; Action := "" |}.

Definition savedMessage (key : string) : WSMessage :=
  {| Type_ := "saved"; Text := ""; Key := key; Action := "" |}.

Definition is_final (m : WSMessage) : bool := Type_ m =? "final".

(** The key under which a session of configuration [cfg] is archived at
    [timestamp]. *)
Definition archiveKey (cfg : Config) (timestamp : string) : string :=
  S3Prefix cfg ++ "/transcription_" ++ timestamp ++ ".txt".

(** A message relayed from the recognition service: a partial or a final
    message with a non-empty text. *)
Definition relayed (m : WSMessage) : Prop :=
  exists text, text <> "" /\ (m = partialMessage text \/ m = finalMessage text).

(** The message that ends a session of configuration [cfg]: one of the two
    error messages, or the saved message with the key of the archive. *)
Definition closing (cfg : Config) (m : WSMessage) : Prop :=
  m = errorMessage "Failed to start transcription"
  \/ m = errorMessage "Failed to save transcription"
  \/ exists timestamp, m = savedMessage (archiveKey cfg timestamp).

(** What a session of configuration [cfg] has sent to its client: relayed
    messages, the final ones being the segments in their order, and after
    them at most one closing message, sent when [handleConnection]
    returns. *)
Definition protocol_inv (cfg : Config) (g : System) : Prop :=
  config (session g) = cfg
  /\ map Text (filter is_final (conn (session g))) = transcripts (session g)
  /\ exists relay terminal,
       conn (session g) = (relay ++ terminal)%list
       /\ Forall relayed relay
       /\ (terminal = []
           \/ (mainPC g = Returned /\ exists m, terminal = [m] /\ closing cfg m)).

(** How often an execution has run [close(audioChan)], and how often the
    deferred [close(done)] of the event task. *)
Fixpoint audioCloses (ls : list Label) : nat :=
  match ls with
  | [] => 0
  | Main CloseAudio :: ls' => S (audioCloses ls')
  | _ :: ls' => audioCloses ls'
  end.

Fixpoint doneCloses (ls : list Label) : nat :=
  match ls with
  | [] => 0
  | Events EventsCtxDone :: ls' => S (doneCloses ls')
  | Events EventsClosed :: ls' => S (doneCloses ls')
  | _ :: ls' => doneCloses ls'
  end.

(** The session in which the texts [ts] have been accepted one after the
    other. *)
Definition st_of (ts : list string) : TranscriptionSession :=
  fold_left (fun s text => accept text s) ts (newSession exampleConfig).

(** The steps that end a session from the state [g] without any further
    input: the clean-up of [handleConnection], the exit of each goroutine
    through the cancelled context, and the archive.  In the read loop the
    first step is the end of the client connection. *)
Definition eventsStop (g : System) : list Label :=
  if running (events g) then [Events EventsCtxDone] else [].

Definition senderStop (g : System) : list Label :=
  if running (sender g) then [Sender SenderCtxDone] else [].

Definition drain (timestamp : string) (putErr : bool) (g : System) : list Label :=
  let finish := ([Main WaitDone; Main (Save timestamp putErr)] ++ senderStop g)%list in
  match mainPC g with
  | AtStart => []
  | AtRead =>
      (Main ReadError :: Main CloseAudio :: Main Cancel :: eventsStop g ++ finish)%list
  | AtClose => (Main CloseAudio :: Main Cancel :: eventsStop g ++ finish)%list
  | AtCancel => (Main Cancel :: eventsStop g ++ finish)%list
  | AtWaitDone => (eventsStop g ++ finish)%list
  | AtSave => (Main (Save timestamp putErr) :: senderStop g)%list
  | Returned => senderStop g
  end.

(** What the end of a session relies on: the context is cancelled once the
    clean-up has passed [s.cancel()], also for a sender left running after
    the return, and the event task, started with the stream, has closed
    [doneChan] once it has ended. *)
Record shutdown_inv (g : System) : Prop := {
  inv_cancelled : mainPC g = AtWaitDone \/ mainPC g = AtSave -> ctx (session g) = true;
  inv_sender_left : mainPC g = Returned -> sender g = Running -> ctx (session g) = true;
  inv_exited : events g = Exited -> doneChan g = true;
  inv_started : mainPC g <> AtStart -> mainPC g <> Returned -> events g <> NotStarted
}.

(** Two sessions with the same segments and the same [lastTranscript]. *)
Definition same_segments (s1 s2 : TranscriptionSession) : Prop :=
  transcripts s1 = transcripts s2 /\ lastTranscript s1 = lastTranscript s2.

(** Every accepted segment is a non-empty text. *)
Definition segments_nonempty (s : TranscriptionSession) : Prop :=
  Forall (fun seg => seg <> "") (transcripts s).

Definition is_error (m : WSMessage) : bool := Type_ m =? "error".
Definition is_saved (m : WSMessage) : bool := Type_ m =? "saved".

(** The number of error messages a session has sent to its client. *)
Definition errors (s : TranscriptionSession) : nat :=
  List.length (filter is_error (conn s)).

(** The states a session reaches from the call of [handleConnection]. *)
Definition reachable (cfg : Config) (g : System) : Prop :=
  exists ls, run ls (init cfg) = Some g.

(** [s] differs from [s0] at most in its segments and in the final and
    partial messages it has sent. *)
Definition same_frame (s0 s : TranscriptionSession) : Prop :=
  ctx s = ctx s0 /\ s3Client s = s3Client s0 /\ config s = config s0
  /\ filter is_error (conn s) = filter is_error (conn s0)
  /\ filter is_saved (conn s) = filter is_saved (conn s0).

(** How the three tasks stand to each other: the context is cancelled and
    the queue closed only after the read loop, [doneChan] is closed only by
    the exit of the event task, the goroutines start with the stream, and
    the archiver runs only after the event task has ended. *)
Record control_inv (g : System) : Prop := {
  inv_bound : List.length (buf (audioChan g)) <= audioChanCap;
  inv_ctx : ctx (session g) = true ->
            mainPC g = AtWaitDone \/ mainPC g = AtSave \/ mainPC g = Returned;
  inv_closed : closed (audioChan g) = true ->
               mainPC g <> AtStart /\ mainPC g <> AtRead /\ mainPC g <> AtClose;
  inv_done : doneChan g = true -> events g = Exited;
  inv_start : mainPC g = AtStart -> events g = NotStarted /\ sender g = NotStarted;
  inv_save : mainPC g = AtSave -> doneChan g = true;
  inv_returned : mainPC g = Returned -> events g <> Running
}.

(** Error messages are sent at most once, and only by a step that ends
    [handleConnection]. *)
Definition errors_inv (g : System) : Prop :=
  errors (session g) <= 1 /\ (mainPC g <> Returned -> errors (session g) = 0).

(** Storage is written, and a saved message sent, only by the archiver at
    the end of [handleConnection]; every write carries the joined, non-empty
    transcript, and every saved message the key of a write that succeeded. *)
Record store_inv (g : System) : Prop := {
  inv_store : mainPC g <> Returned ->
              s3Client (session g) = [] /\ filter is_saved (conn (session g)) = [];
  inv_saved : forall m, In m (filter is_saved (conn (session g))) ->
              exists input, In (input, false) (s3Client (session g))
                            /\ ObjectKey input = Key m;
  inv_put : forall input e, In (input, e) (s3Client (session g)) ->
            Body input = strings.Join (transcripts (session g)) " "
            /\ Body input <> ""
}.

(** The frames the read loop has put on the queue, in order, and the number
    of times the sender has taken the branch of the closed queue. *)
Fixpoint enqueued (ls : list Label) : list AudioFrame :=
  match ls with
  | [] => []
  | Main (ReadBinary message CaseSend) :: ls' => message :: enqueued ls'
  | _ :: ls' => enqueued ls'
  end.

Fixpoint completions (ls : list Label) : nat :=
  match ls with
  | [] => 0
  | Sender SenderClosed :: ls' => S (completions ls')
  | _ :: ls' => completions ls'
  end.

(** The sends to the recognition service agree with the queue: before the
    end-of-stream send, the frames sent followed by the frames waiting are
    the frames enqueued; the end-of-stream send comes once, from the closed
    and drained queue, after all of them, and ends the sender. *)
Definition forward_inv (ls : list Label) (g : System) : Prop :=
  (sender g <> Exited -> completions ls = 0)
  /\ (completions ls = 0 ->
       (upstream g ++ buf (audioChan g))%list = enqueued ls)
  /\ (completions ls <> 0 ->
       completions ls = 1 /\ sender g = Exited
       /\ closed (audioChan g) = true /\ buf (audioChan g) = []
       /\ upstream g = (enqueued ls ++ [[]])%list).

(** The payloads of length zero among [frames].  The chunk of the
    end-of-stream send is one; so is a binary message of length zero from
    the client, which the read loop enqueues like any other. *)
Definition is_empty_payload (audio : AudioFrame) : bool :=
  match audio with
  | [] => true
  | _ :: _ => false
  end.

Definition empty_payloads (frames : list AudioFrame) : nat :=
  List.length (filter is_empty_payload frames).

(* ================================================================== *)
(** ** Facts about the library model                                   *)
(* ================================================================== *)

(** *** The model on the inputs of Go's documentation and tests *)

Example Contains_examples :
  strings.Contains "seafood" "foo" = true
  /\ strings.Contains "seafood" "bar" = false
  /\ strings.Contains "seafood" "" = true
  /\ strings.Contains "" "" = true.
Proof. repeat split; reflexivity. Qed.

Example Replace_examples :
  strings.Replace "oink oink oink" "k" "ky" 2 = "oinky oinky oink"
  /\ strings.Replace "oink oink oink" "oink" "moo" (-1) = "moo moo moo"
  /\ strings.Replace "banana" "a" "" 1 = "bnana"
  /\ strings.Replace "abc" "" "-" (-1) = "-a-b-c-"
  /\ strings.Replace "abc" "" "" 1 = "abc".
Proof. repeat split; vm_compute; reflexivity. Qed.

(** A tab, a no-break space (C2 A0), [" x "] and a line separator
    (E2 80 A8) trim to ["x"]; a lone byte C2 is no white space. *)
Example TrimSpace_examples :
  strings.TrimSpace "  in left arm  " = "in left arm"
  /\ strings.TrimSpace
       (String (ascii_of_nat 9) (String (ascii_of_nat 194) (String (ascii_of_nat 160)
          (" x " ++ String (ascii_of_nat 226) (String (ascii_of_nat 128)
                      (String (ascii_of_nat 168) ""))))))
     = "x"
  /\ strings.TrimSpace (String (ascii_of_nat 194) " ") = String (ascii_of_nat 194) ""
  /\ strings.TrimSpace "   " = "".
Proof. repeat split; vm_compute; reflexivity. Qed.

Example Join_examples :
  strings.Join ["foo"; "bar"; "baz"] ", " = "foo, bar, baz"
  /\ strings.Join ["foo"] ", " = "foo"
  /\ strings.Join [] ", " = "".
Proof. repeat split; reflexivity. Qed.

(** *** The trimming loops run to their end

    [trim_left] and [trim_right] are given [length s] rounds; every round
    removes at least one byte, so they stop only where Go's loops stop: at
    the empty string or at a rune the predicate rejects. *)

Lemma length_drop (n : nat) (s : string) : length (drop n s) = length s - n.
Proof.
  revert s. induction n as [|n IH]; intros [|c s]; simpl; auto.
Qed.

Lemma length_take (n : nat) (s : string) : length (take n s) = Nat.min n (length s).
Proof.
  revert s. induction n as [|n IH]; intros [|c s]; simpl; auto.
Qed.

Lemma DecodeRuneInString_width (s : string) :
  s <> "" -> 1 <= snd (utf8.DecodeRuneInString s).
Proof.
  destruct s as [|c0 s]; [congruence|]. intros _.
  unfold utf8.DecodeRuneInString.
  repeat match goal with
         | |- context [if ?b then _ else _] => destruct b
         | |- context [match ?x with _ => _ end] => destruct x
         end; simpl; lia.
Qed.

Lemma find_start_ge (r : string) (k span : nat) :
  span <= utf8.find_start r k span.
Proof.
  revert r span. induction k as [|k IH]; intros [|c t] span; simpl; try lia.
  destruct (utf8.RuneStart (byte_val c)); [lia|].
  specialize (IH t (S span)). lia.
Qed.

Lemma DecodeLastRuneInString_width (s : string) :
  s <> "" -> 1 <= snd (utf8.DecodeLastRuneInString s).
Proof.
  intros Hs. unfold utf8.DecodeLastRuneInString.
  destruct (rev_string s) as [|c t] eqn:E.
  - destruct s as [|a s]; [congruence|]. simpl in E.
    destruct (rev_string s); discriminate.
  - destruct (byte_val c <? utf8.RuneSelf)%Z; [simpl; lia|].
    destruct (utf8.DecodeRuneInString _) as [r' size].
    destruct (Nat.eqb_spec size (utf8.find_start t 3 1)) as [->|]; simpl; [|lia].
    pose proof (find_start_ge t 3 1). lia.
Qed.

Lemma trim_left_done (f : Z -> bool) (fuel : nat) (s : string) :
  length s <= fuel ->
  let r := strings.trim_left fuel f s in
  r = "" \/ f (fst (utf8.DecodeRuneInString r)) = false.
Proof.
  revert s. induction fuel as [|fuel IH]; intros s Hlen.
  - destruct s; [now left|simpl in Hlen; lia].
  - destruct s as [|c s]; [now left|].
    cbn [strings.trim_left].
    pose proof (DecodeRuneInString_width (String c s)) as Hw.
    destruct (utf8.DecodeRuneInString (String c s)) as [r wid] eqn:E.
    destruct (f r) eqn:Hf.
    + apply IH. rewrite length_drop.
      assert (1 <= wid) by (apply Hw; discriminate).
      change (length (String c s)) with (S (length s)) in *. lia.
    + right. cbv zeta. now rewrite E.
Qed.

Lemma trim_right_done (f : Z -> bool) (fuel : nat) (s : string) :
  length s <= fuel ->
  let r := strings.trim_right fuel f s in
  r = "" \/ f (fst (utf8.DecodeLastRuneInString r)) = false.
Proof.
  revert s. induction fuel as [|fuel IH]; intros s Hlen.
  - destruct s; [now left|simpl in Hlen; lia].
  - destruct s as [|c s]; [now left|].
    cbn [strings.trim_right].
    pose proof (DecodeLastRuneInString_width (String c s)) as Hw.
    destruct (utf8.DecodeLastRuneInString (String c s)) as [r wid] eqn:E.
    destruct (f r) eqn:Hf.
    + apply IH. rewrite length_take.
      assert (1 <= wid) by (apply Hw; discriminate).
      change (length (String c s)) with (S (length s)) in *. lia.
    + right. cbv zeta. now rewrite E.
Qed.

(** The text [TrimSpace] returns does not end in white space. *)
Lemma TrimSpace_done (s : string) :
  strings.TrimSpace s = ""
  \/ unicode.IsSpace (fst (utf8.DecodeLastRuneInString (strings.TrimSpace s))) = false.
Proof.
  unfold strings.TrimSpace, strings.TrimRightFunc. now apply trim_right_done.
Qed.

(** *** Occurrences *)

Lemma prefix_refl (s : string) : prefix s s = true.
Proof.
  induction s as [|c s IH]; simpl; [reflexivity|].
  destruct (ascii_dec c c); [assumption|congruence].
Qed.

Lemma prefix_split (sub t : string) :
  prefix sub t = true -> t = sub ++ drop (length sub) t.
Proof.
  revert t. induction sub as [|a sub IH]; intros t E; simpl.
  - now destruct t.
  - destruct t as [|b t]; simpl in E; [discriminate|].
    destruct (ascii_dec a b) as [->|]; [|discriminate].
    simpl. f_equal. now apply IH.
Qed.

Lemma Contains_empty_l (sub : string) :
  sub <> "" -> strings.Contains "" sub = false.
Proof.
  destruct sub as [|c sub]; [congruence|reflexivity].
Qed.

Lemma Contains_refl (s : string) : strings.Contains s s = true.
Proof.
  unfold strings.Contains.
  destruct s as [|c s]; [reflexivity|].
  unfold strings.Index. now rewrite prefix_refl.
Qed.

Lemma Index_eq (s sub : string) :
  strings.Index s sub =
  if prefix sub s then Some 0
  else match s with
       | EmptyString => None
       | String _ t => option_map S (strings.Index t sub)
       end.
Proof. destruct s; reflexivity. Qed.

(** [Index] finds an occurrence: the string splits around it. *)
Lemma Index_split (s sub : string) (j : nat) :
  strings.Index s sub = Some j ->
  s = take j s ++ sub ++ drop (j + length sub) s.
Proof.
  revert j. induction s as [|c s IH]; intros j; rewrite Index_eq;
    destruct (prefix sub _) eqn:E.
  - intros [= <-]. now apply prefix_split in E.
  - discriminate.
  - intros [= <-]. now apply prefix_split in E.
  - destruct (strings.Index s sub) as [k|] eqn:Ek; simpl; [|discriminate].
    intros [= <-]. simpl. f_equal. now apply IH.
Qed.

(** Removing the first occurrence of a non-empty [old]. *)
Lemma Replace_first (s old : string) (j : nat) :
  old <> "" ->
  strings.Index s old = Some j ->
  strings.Replace s old "" 1 = take j s ++ drop (j + length old) s.
Proof.
  intros Hold Hj. unfold strings.Replace.
  destruct old as [|c old]; [congruence|].
  change (strings.replace_loop 1 s (String c old) ""
          = take j s ++ drop (j + length (String c old)) s).
  cbn [strings.replace_loop]. rewrite Hj. reflexivity.
Qed.

(* ================================================================== *)
(** ** The reconciler                                                  *)
(* ================================================================== *)

Lemma processFinal_accept (text : string) (s : TranscriptionSession) :
  processFinal text s =
  if fst (checkDuplicate text s) then s else accept (snd (checkDuplicate text s)) s.
Proof.
  unfold processFinal. destruct (checkDuplicate text s) as [[] t]; reflexivity.
Qed.

Lemma finalEvent_processFinal (T : string) (s : TranscriptionSession) :
  T <> "" -> processTranscriptEvent (finalEvent T) s = processFinal T s.
Proof.
  intros HT. unfold processTranscriptEvent, finalEvent, processResult. simpl.
  destruct (String.eqb_spec T ""); [contradiction|reflexivity].
Qed.

Lemma accept_grows (text : string) (s : TranscriptionSession) :
  transcripts (accept text s) <> transcripts s.
Proof.
  simpl. intros E. apply (f_equal (@List.length string)) in E.
  rewrite length_app in E. simpl in E. lia.
Qed.

(** The duplicate check, case by case. *)
Lemma checkDuplicate_fresh (text : string) (s : TranscriptionSession) :
  lastTranscript s = "" -> checkDuplicate text s = (false, text).
Proof.
  intros E. unfold checkDuplicate. now rewrite E.
Qed.

Lemma checkDuplicate_exact (s : TranscriptionSession) :
  lastTranscript s <> "" ->
  checkDuplicate (lastTranscript s) s = (true, lastTranscript s).
Proof.
  intros E. unfold checkDuplicate.
  destruct (String.eqb_spec (lastTranscript s) ""); [contradiction|].
  now rewrite String.eqb_refl.
Qed.

Lemma checkDuplicate_extension (text : string) (s : TranscriptionSession) :
  lastTranscript s <> "" ->
  text <> lastTranscript s ->
  strings.Contains text (lastTranscript s) = true ->
  checkDuplicate text s =
  let newPart := strings.TrimSpace (strings.Replace text (lastTranscript s) "" 1) in
  if newPart =? "" then (true, text) else (false, newPart).
Proof.
  intros E N C. unfold checkDuplicate.
  destruct (String.eqb_spec (lastTranscript s) ""); [contradiction|].
  destruct (String.eqb_spec text (lastTranscript s)); [contradiction|].
  rewrite C. cbv zeta. simpl negb.
  now destruct (_ =? "").
Qed.

Lemma checkDuplicate_scan (text : string) (s : TranscriptionSession) :
  text <> lastTranscript s ->
  strings.Contains text (lastTranscript s) = false ->
  checkDuplicate text s =
  match scanRecent text (transcripts s) (List.length (transcripts s)) with
  | Some _ => (true, text)
  | None => (false, text)
  end.
Proof.
  intros N C. unfold checkDuplicate.
  destruct (String.eqb_spec (lastTranscript s) "") as [E|E]; simpl.
  - rewrite E in C. destruct text; discriminate.
  - destruct (String.eqb_spec text (lastTranscript s)); [contradiction|].
    rewrite C.
    destruct (transcripts s); reflexivity.
Qed.

(** The loop looks at the last three segments, the most recent first, and
    at no other. *)
Lemma scanRecent_find (text : string) (ts : list string) (k : nat) :
  k <= List.length ts ->
  scanRecent text ts k =
  find (strings.Contains text) (rev (skipn (List.length ts - 3) (firstn k ts))).
Proof.
  induction k as [|i IH]; intros Hk.
  - simpl. now rewrite skipn_nil.
  - cbn [scanRecent].
    destruct (nth_error ts i) as [seg|] eqn:Hnth.
    2:{ apply nth_error_None in Hnth. lia. }
    assert (Hfirst : firstn (S i) ts = (firstn i ts ++ [seg])%list).
    { clear -Hnth. revert i Hnth. induction ts as [|a ts IHts]; intros [|i] H;
        simpl in *; try discriminate.
      - now injection H as ->.
      - f_equal. now apply IHts. }
    destruct (Z.geb_spec (Z.of_nat i) (Z.of_nat (List.length ts) - 3)) as [Hge|Hlt].
    + rewrite Hfirst, skipn_app, length_firstn.
      replace (List.length ts - 3 - Nat.min i (List.length ts)) with 0 by lia.
      cbn [skipn]. rewrite rev_app_distr. cbn [rev app find].
      destruct (strings.Contains text seg); [reflexivity|].
      apply IH. lia.
    + rewrite skipn_all2; [reflexivity|].
      rewrite length_firstn. lia.
Qed.

Lemma scanRecent_recent3 (text : string) (ts : list string) :
  scanRecent text ts (List.length ts) = find (strings.Contains text) (recent3 ts).
Proof.
  rewrite scanRecent_find by lia. unfold recent3. now rewrite firstn_all.
Qed.

Lemma recent3_app (older : list string) (a b c : string) :
  recent3 (older ++ [a; b; c])%list = [c; b; a].
Proof.
  unfold recent3. rewrite length_app. simpl List.length.
  replace (List.length older + 3 - 3) with (List.length older + 0) by lia.
  rewrite skipn_app, Nat.add_0_r, skipn_all.
  replace (List.length older - List.length older) with 0 by lia.
  reflexivity.
Qed.

Lemma recent3_older (older newest : list string) :
  List.length newest = 3 -> recent3 (older ++ newest)%list = rev newest.
Proof.
  destruct newest as [|a [|b [|c [|d rest]]]]; try discriminate.
  intros _. apply recent3_app.
Qed.

Lemma find_Contains (text : string) (l : list string) :
  (exists seg, find (strings.Contains text) l = Some seg)
  <-> (exists seg, In seg l /\ strings.Contains text seg = true).
Proof.
  split.
  - intros [seg H]. exists seg. now apply find_some in H.
  - intros [seg [Hin Hc]].
    destruct (find (strings.Contains text) l) as [x|] eqn:E; [now exists x|].
    apply (find_none _ _ E) in Hin. congruence.
Qed.

(** C1 (extension merge).  In a state with a non-empty [lastTranscript], a
    final text [T] that differs from [lastTranscript] and contains it is
    reduced to [R], the text [T] with the first occurrence of
    [lastTranscript] removed and the surrounding white space trimmed.  When
    [R] is not empty the reconciler appends exactly [R] (not [T]) to the
    segment list, sets [lastTranscript] to [R] and sends [R] as the final
    message; when [R] is empty nothing is appended and [lastTranscript] is
    unchanged (the session is left as it was). *)
Theorem C1_extension_merge (s : TranscriptionSession) (T : string) :
  lastTranscript s <> "" ->
  T <> lastTranscript s ->
  strings.Contains T (lastTranscript s) = true ->
  let R := strings.TrimSpace (strings.Replace T (lastTranscript s) "" 1) in
  let s' := processTranscriptEvent (finalEvent T) s in
  (R <> "" ->
     transcripts s' = (transcripts s ++ [R])%list
     /\ lastTranscript s' = R
     /\ s' = accept R s)
  /\ (R = "" ->
       transcripts s' = transcripts s
       /\ lastTranscript s' = lastTranscript s
       /\ s' = s).
Proof.
  intros Hlast Hneq Hcont R s'.
  assert (HT : T <> "").
  { intros ->. rewrite Contains_empty_l in Hcont by assumption. discriminate. }
  assert (Hs' : s' = if R =? "" then s else accept R s).
  { subst s'. rewrite finalEvent_processFinal, processFinal_accept by assumption.
    rewrite checkDuplicate_extension by assumption. cbv zeta. fold R.
    now destruct (R =? ""). }
  split; intros HR; rewrite Hs'.
  - destruct (String.eqb_spec R ""); [contradiction|]. now repeat split.
  - destruct (String.eqb_spec R ""); [|contradiction]. now repeat split.
Qed.

(** The extension example of the specification: after ["patient reports
    pain"], the final text ["patient reports pain in left arm"] adds the
    segment ["in left arm"]. *)
Lemma C1_extension_merge_witness :
  let s := accept "patient reports pain"
             (newSession exampleConfig) in
  let s' := processTranscriptEvent (finalEvent "patient reports pain in left arm") s in
  transcripts s' = ["patient reports pain"; "in left arm"]
  /\ lastTranscript s' = "in left arm"
  /\ s' = accept "in left arm" s.
Proof.
  intros s s'.
  refine (proj1 (C1_extension_merge s "patient reports pain in left arm" _ _ _) _).
  - discriminate.
  - discriminate.
  - reflexivity.
  - discriminate.
Defined.

(** C2 (older-segment containment).  For a non-empty final text [T] that
    differs from [lastTranscript] and does not contain it, the loop of the
    reconciler looks at the last three segments of the list, the most recent
    first, and answers the first of them that [T] contains; [T] is discarded
    (no append, [lastTranscript] unchanged, no message) if and only if one
    of these three segments is a substring of [T], and is accepted verbatim
    otherwise.  Older segments play no part. *)
Theorem C2_recent_segments_window (s : TranscriptionSession) (T : string) :
  T <> "" ->
  T <> lastTranscript s ->
  strings.Contains T (lastTranscript s) = false ->
  let s' := processTranscriptEvent (finalEvent T) s in
  let hit := exists seg, In seg (recent3 (transcripts s))
                         /\ strings.Contains T seg = true in
  scanRecent T (transcripts s) (List.length (transcripts s))
  = find (strings.Contains T) (recent3 (transcripts s))
  /\ ((transcripts s' = transcripts s /\ lastTranscript s' = lastTranscript s)
        <-> hit)
  /\ (hit -> s' = s)
  /\ (~ hit -> s' = accept T s)
  /\ (forall older newest,
        transcripts s = (older ++ newest)%list -> List.length newest = 3 ->
        recent3 (transcripts s) = rev newest).
Proof.
  intros HT Hneq Hcont s' hit.
  cut ((scanRecent T (transcripts s) (List.length (transcripts s))
        = find (strings.Contains T) (recent3 (transcripts s))
        /\ ((transcripts s' = transcripts s /\ lastTranscript s' = lastTranscript s)
            <-> hit)
        /\ (hit -> s' = s)
        /\ (~ hit -> s' = accept T s))).
  { intros (A & B & C & D). repeat split; try tauto.
    intros older newest -> Hlen. now apply recent3_older. }
  assert (Hs' : s' = match find (strings.Contains T) (recent3 (transcripts s)) with
                     | Some _ => s
                     | None => accept T s
                     end).
  { subst s'. rewrite finalEvent_processFinal, processFinal_accept by assumption.
    rewrite checkDuplicate_scan, scanRecent_recent3 by assumption.
    now destruct (find _ _). }
  pose proof (find_Contains T (recent3 (transcripts s))) as Hfind.
  fold hit in Hfind.
  split; [apply scanRecent_recent3|].
  destruct (find (strings.Contains T) (recent3 (transcripts s))) as [seg|] eqn:E.
  - assert (Hhit : hit) by (apply Hfind; now exists seg).
    rewrite Hs'. repeat split; auto. contradiction.
  - assert (Hno : ~ hit).
    { intros H. apply Hfind in H. destruct H as [x H]. discriminate. }
    rewrite Hs'. repeat split; auto; try contradiction.
    intros [Ht _]. now apply accept_grows in Ht.
Qed.

(** The containment example of the specification in a state the reconciler
    reaches: with the history ["A"; "B"; "C"], the final text
    ["contains B inside it"] is discarded. *)
Lemma C2_recent_segments_window_witness :
  let s := accept "C" (accept "B" (accept "A"
             (newSession exampleConfig))) in
  processTranscriptEvent (finalEvent "contains B inside it") s = s.
Proof.
  intros s.
  refine (proj1 (proj2 (proj2
            (C2_recent_segments_window s "contains B inside it" _ _ _))) _).
  - discriminate.
  - discriminate.
  - reflexivity.
  - exists "B". split; [simpl; tauto|reflexivity].
Defined.

(** C3, as stated, fails: submitting the same final text twice in a row can
    add two segments.  After ["patient reports pain"], the text
    ["patient reports pain in left arm"] is first accepted as the remainder
    ["in left arm"], which becomes [lastTranscript]; the second submission
    is then no exact duplicate but an extension of ["in left arm"], and its
    remainder ["patient reports pain"] is accepted as well. *)
Lemma C3_repeat_after_extension_counterexample :
  let s0 := processTranscriptEvent (finalEvent "patient reports pain")
              (newSession exampleConfig) in
  let T := "patient reports pain in left arm" in
  let s1 := processTranscriptEvent (finalEvent T) s0 in
  let s2 := processTranscriptEvent (finalEvent T) s1 in
  T <> ""
  /\ transcripts s0 = ["patient reports pain"]
  /\ transcripts s1 = ["patient reports pain"; "in left arm"]
  /\ lastTranscript s1 = "in left arm"
  /\ transcripts s2 = ["patient reports pain"; "in left arm"; "patient reports pain"]
  /\ lastTranscript s2 = "patient reports pain"
  /\ ~ (exists seg, transcripts s2 = (transcripts s0 ++ [seg])%list)
  /\ lastTranscript s2 <> lastTranscript s1.
Proof.
  vm_compute. repeat split; try discriminate.
  intros [seg H]. discriminate.
Qed.

(** C3, amended.  When the first submission of a non-empty final text [T]
    is accepted verbatim ([T] itself is appended), [lastTranscript] is [T]
    and the second submission in a row, being equal to [lastTranscript], is
    discarded: it leaves the session as it is, so the two submissions add
    exactly one segment. *)
Theorem C3_idempotent_after_verbatim_accept (s : TranscriptionSession) (T : string) :
  T <> "" ->
  let s1 := processTranscriptEvent (finalEvent T) s in
  let s2 := processTranscriptEvent (finalEvent T) s1 in
  transcripts s1 = (transcripts s ++ [T])%list ->
  lastTranscript s1 = T
  /\ s2 = s1
  /\ transcripts s2 = (transcripts s ++ [T])%list
  /\ lastTranscript s2 = lastTranscript s1.
Proof.
  intros HT s1 s2 Happ.
  assert (Hlast : lastTranscript s1 = T).
  { subst s1. revert Happ.
    rewrite finalEvent_processFinal, processFinal_accept by assumption.
    destruct (fst (checkDuplicate T s)).
    - intros E. exfalso. apply (f_equal (@List.length string)) in E.
      rewrite length_app in E. simpl in E. lia.
    - simpl. intros E. now apply app_inj_tail in E. }
  assert (Hs2 : s2 = s1).
  { subst s2. rewrite finalEvent_processFinal, processFinal_accept by assumption.
    pose proof (checkDuplicate_exact s1) as Hdup. rewrite Hlast in Hdup.
    now rewrite Hdup. }
  rewrite Hs2. auto.
Qed.

(** From the new session, ["hello there"] twice in a row is stored once. *)
Lemma C3_idempotent_after_verbatim_accept_witness :
  let s := newSession exampleConfig in
  let s1 := processTranscriptEvent (finalEvent "hello there") s in
  let s2 := processTranscriptEvent (finalEvent "hello there") s1 in
  lastTranscript s1 = "hello there"
  /\ s2 = s1
  /\ transcripts s2 = ["hello there"]
  /\ lastTranscript s2 = lastTranscript s1.
Proof.
  intros s s1 s2.
  apply (C3_idempotent_after_verbatim_accept s "hello there").
  - discriminate.
  - reflexivity.
Defined.

(** C8 (empty input).  A result whose text is empty, be it marked final or
    partial, with an empty transcript or with none, leaves the session
    exactly as it is: no segment is appended, [lastTranscript] is unchanged
    and nothing is sent to the client. *)
Theorem C8_empty_text_noop (s : TranscriptionSession) (partial : bool)
  (others : list MedicalAlternative) :
  processTranscriptEvent
    {| Results := [ {| Alternatives := {| Transcript := Some "" |} :: others;
                       IsPartial := partial |} ] |} s = s
  /\ processTranscriptEvent
       {| Results := [ {| Alternatives := {| Transcript := None |} :: others;
                          IsPartial := partial |} ] |} s = s
  /\ processTranscriptEvent (finalEvent "") s = s
  /\ transcripts (processTranscriptEvent (finalEvent "") s) = transcripts s
  /\ lastTranscript (processTranscriptEvent (finalEvent "") s) = lastTranscript s
  /\ conn (processTranscriptEvent (finalEvent "") s) = conn s.
Proof.
  repeat split; reflexivity.
Qed.

(** An accepted text is never empty. *)
Lemma checkDuplicate_nonempty (text : string) (s : TranscriptionSession) :
  text <> "" ->
  fst (checkDuplicate text s) = false ->
  snd (checkDuplicate text s) <> "".
Proof.
  intros HT. unfold checkDuplicate.
  destruct (negb (lastTranscript s =? "")); [|now simpl].
  destruct (text =? lastTranscript s); [discriminate|].
  destruct (strings.Contains text (lastTranscript s)).
  - cbv zeta.
    destruct (String.eqb_spec
                (strings.TrimSpace (strings.Replace text (lastTranscript s) "" 1)) "");
      simpl; [discriminate|auto].
  - destruct (0 <? List.length (transcripts s))%nat; [|now simpl].
    destruct (scanRecent _ _ _); [discriminate|now simpl].
Qed.

(** What one result does to the session: nothing, the acceptance of a
    non-empty text, or the forwarding of a partial text. *)
Lemma processResult_cases (result : MedicalResult) (s : TranscriptionSession) :
  processResult result s = s
  \/ (exists text, text <> "" /\ processResult result s = accept text s)
  \/ (exists text,
        processResult result s =
        sendMessage {| Type_ := "partial"; Text := text; Key := ""; Action := "" |} s).
Proof.
  unfold processResult.
  destruct (Alternatives result) as [|alternative rest]; [now left|].
  destruct (String.eqb_spec (ToString (Transcript alternative)) "") as [|HT];
    [now left|].
  destruct (IsPartial result); simpl negb; cbv iota.
  - right; right. eexists; reflexivity.
  - rewrite processFinal_accept.
    destruct (fst (checkDuplicate _ s)) eqn:E; [now left|].
    right; left. eexists; split; [|reflexivity].
    now apply checkDuplicate_nonempty.
Qed.

(** A property of sessions that every result preserves is preserved by
    every event. *)
Lemma processTranscriptEvent_preserves (P : TranscriptionSession -> Prop) :
  (forall result s, P s -> P (processResult result s)) ->
  forall event s, P s -> P (processTranscriptEvent event s).
Proof.
  intros Hstep event. unfold processTranscriptEvent.
  induction (Results event) as [|r rs IH]; intros s Hs; simpl; [assumption|].
  apply IH, Hstep, Hs.
Qed.

Lemma processResult_append (result : MedicalResult) (s : TranscriptionSession) :
  transcripts (processResult result s) = transcripts s
  \/ exists seg, transcripts (processResult result s) = (transcripts s ++ [seg])%list.
Proof.
  destruct (processResult_cases result s) as [E|[[t [_ E]]|[t E]]]; rewrite E.
  - now left.
  - right. now exists t.
  - now left.
Qed.

Lemma processTranscriptEvent_append (event : MedicalTranscript) (s : TranscriptionSession) :
  exists added,
    transcripts (processTranscriptEvent event s) = (transcripts s ++ added)%list
    /\ List.length added <= List.length (Results event).
Proof.
  unfold processTranscriptEvent.
  revert s. induction (Results event) as [|r rs IH]; intros s; simpl.
  - exists []. now rewrite app_nil_r.
  - destruct (IH (processResult r s)) as [added [E L]]. rewrite E.
    destruct (processResult_append r s) as [E'|[seg E']]; rewrite E'.
    + exists added. split; [reflexivity|lia].
    + exists (seg :: added). rewrite <- app_assoc. split; [reflexivity|simpl; lia].
Qed.

Lemma processResult_last_agrees (result : MedicalResult) (s : TranscriptionSession) :
  last_agrees s -> last_agrees (processResult result s).
Proof.
  intros H.
  destruct (processResult_cases result s) as [E|[[t [Ht E]]|[t E]]]; rewrite E.
  - assumption.
  - unfold last_agrees; simpl. split.
    + split; [contradiction|]. intros E'. now apply app_eq_nil in E' as [_ E'].
    + intros _ d. apply last_last.
  - exact H.
Qed.

Lemma processResult_segments_nonempty (result : MedicalResult) (s : TranscriptionSession) :
  segments_nonempty s -> segments_nonempty (processResult result s).
Proof.
  intros H.
  destruct (processResult_cases result s) as [E|[[t [Ht E]]|[t E]]]; rewrite E.
  - assumption.
  - unfold segments_nonempty; simpl. apply Forall_app. split; [exact H|].
    now constructor.
  - exact H.
Qed.

(** The archiver reads the segment list and leaves it as it is. *)
Lemma saveToS3_transcripts (timestamp : string) (putErr : bool) (s : TranscriptionSession) :
  transcripts (saveToS3 timestamp putErr s) = transcripts s
  /\ lastTranscript (saveToS3 timestamp putErr s) = lastTranscript s.
Proof.
  unfold saveToS3.
  destruct (_ =? ""); [now split|]. now destruct putErr.
Qed.

(* ================================================================== *)
(** ** Executions of a session                                         *)
(* ================================================================== *)

Lemma run_app (ls1 ls2 : list Label) (g : System) :
  run (ls1 ++ ls2) g =
  match run ls1 g with
  | Some g1 => run ls2 g1
  | None => None
  end.
Proof.
  revert g. induction ls1 as [|l ls1 IH]; intros g; simpl; [reflexivity|].
  destruct (step l g); [apply IH|reflexivity].
Qed.

(** Induction over an execution: what every step preserves holds at its
    end. *)
Lemma run_invariant (P : System -> Prop) :
  (forall l g g', P g -> step l g = Some g' -> P g') ->
  forall ls g g', P g -> run ls g = Some g' -> P g'.
Proof.
  intros Hstep ls. induction ls as [|l ls IH]; intros g g' Hg; simpl.
  - now intros [= <-].
  - destruct (step l g) as [g1|] eqn:E; [|discriminate].
    apply IH. eapply Hstep; eassumption.
Qed.

Lemma at_pc_eq (g : System) (pc : MainPC) :
  at_pc g pc = true -> mainPC g = pc.
Proof.
  unfold at_pc. destruct (mainPC g), pc; congruence.
Qed.

Lemma running_eq (t : TaskPC) : running t = true -> t = Running.
Proof.
  destruct t; simpl; congruence.
Qed.

(** Case analysis of a step that was taken. *)
Ltac step_inv H :=
  unfold step, handleConnection, handleTranscriptionEvents,
    sendAudioToTranscribe, forwardAudio, guard, eventsExit in H;
  repeat match type of H with
         | context [if ?b then _ else _] => destruct b eqn:?
         | context [match ?x with _ => _ end] => destruct x eqn:?
         end;
  try discriminate H;
  injection H as <-;
  repeat match goal with
         | E : at_pc _ _ = true |- _ => apply at_pc_eq in E
         | E : running _ = true |- _ => apply running_eq in E
         | E : (_ && _) = true |- _ => apply andb_prop in E as [? ?]
         end.

(** What a step does to the session object. *)
Lemma step_session (l : Label) (g g' : System) :
  step l g = Some g' ->
  session g' = session g
  \/ (l = StartStream true /\ mainPC g = AtStart /\ mainPC g' = Returned
      /\ session g' = sendError "Failed to start transcription" (session g))
  \/ (l = Cancel /\ session g' = set_ctx true (session g))
  \/ (exists timestamp putErr,
        l = Save timestamp putErr /\ mainPC g = AtSave /\ mainPC g' = Returned
        /\ transcripts (session g) <> []
        /\ session g' = saveToS3 timestamp putErr (session g))
  \/ (exists t,
        l = EventsRecv (TranscriptEvent (Some t)) /\ events g = Running
        /\ session g' = processTranscriptEvent t (session g)).
Proof.
  intros H. destruct l as [[]|[]|[]]; step_inv H; simpl; auto.
  - right; left. auto.
  - right; right; right; left. exists timestamp, putErr.
    repeat split; auto.
    destruct (transcripts (session g)); [discriminate|congruence].
  - right; right; right; right. eexists; repeat split; eauto.
Qed.

Lemma step_append (l : Label) (g g' : System) :
  step l g = Some g' ->
  exists added, transcripts (session g') = (transcripts (session g) ++ added)%list.
Proof.
  intros H.
  destruct (step_session l g g' H)
    as [E|[(_ & _ & _ & E)|[(_ & E)|[(ts & e & _ & _ & _ & _ & E)|(t & _ & _ & E)]]]];
    rewrite E.
  - exists []. now rewrite app_nil_r.
  - exists []. simpl. now rewrite app_nil_r.
  - exists []. simpl. now rewrite app_nil_r.
  - exists []. rewrite (proj1 (saveToS3_transcripts ts e _)). now rewrite app_nil_r.
  - destruct (processTranscriptEvent_append t (session g)) as [added [Ha _]].
    now exists added.
Qed.

Lemma run_append (ls : list Label) (g g' : System) :
  run ls g = Some g' ->
  exists added, transcripts (session g') = (transcripts (session g) ++ added)%list.
Proof.
  revert g. induction ls as [|l ls IH]; intros g; simpl.
  - intros [= <-]. exists []. now rewrite app_nil_r.
  - destruct (step l g) as [g1|] eqn:E; [|discriminate].
    intros H. destruct (IH _ H) as [a2 E2]. destruct (step_append _ _ _ E) as [a1 E1].
    exists (a1 ++ a2)%list. now rewrite E2, E1, app_assoc.
Qed.

Lemma step_last_agrees (l : Label) (g g' : System) :
  last_agrees (session g) -> step l g = Some g' -> last_agrees (session g').
Proof.
  intros Hg H.
  destruct (step_session l g g' H)
    as [E|[(_ & _ & _ & E)|[(_ & E)|[(ts & e & _ & _ & _ & _ & E)|(t & _ & _ & E)]]]];
    rewrite E; try exact Hg.
  - unfold last_agrees.
    now rewrite (proj1 (saveToS3_transcripts ts e _)), (proj2 (saveToS3_transcripts ts e _)).
  - apply processTranscriptEvent_preserves; [apply processResult_last_agrees|exact Hg].
Qed.

Lemma newSession_last_agrees (cfg : Config) : last_agrees (newSession cfg).
Proof.
  unfold last_agrees; simpl. split; [tauto|congruence].
Qed.

Lemma reachable_last_agrees (cfg : Config) (g : System) :
  reachable cfg g -> last_agrees (session g).
Proof.
  intros [ls H].
  apply (run_invariant (fun g => last_agrees (session g)) step_last_agrees
           ls (init cfg) g); [apply newSession_last_agrees|exact H].
Qed.

(** C9 (append-only segment list).  One result handled by the reconciler
    leaves the segment list unchanged or appends exactly one segment at its
    end; an event appends at most one segment per result; the archiver
    leaves the list as it is; and along every execution of a session the
    list of an earlier state is a prefix of the list of a later one, so no
    segment is ever changed, moved or removed. *)
Theorem C9_segments_append_only :
  (forall result s,
      transcripts (processResult result s) = transcripts s
      \/ exists seg, transcripts (processResult result s) = (transcripts s ++ [seg])%list)
  /\ (forall event s,
        exists added,
          transcripts (processTranscriptEvent event s) = (transcripts s ++ added)%list
          /\ List.length added <= List.length (Results event))
  /\ (forall timestamp putErr s,
        transcripts (saveToS3 timestamp putErr s) = transcripts s)
  /\ (forall ls g g',
        run ls g = Some g' ->
        exists added, transcripts (session g') = (transcripts (session g) ++ added)%list).
Proof.
  split; [exact processResult_append|].
  split; [exact processTranscriptEvent_append|].
  split; [intros; apply saveToS3_transcripts|].
  exact run_append.
Qed.

(** One final text accepted in a running session: the empty list grows to
    the one segment. *)
Lemma C9_segments_append_only_witness :
  let cfg := exampleConfig in
  let trace : list Label :=
    [Main (StartStream false);
     Events (EventsRecv (TranscriptEvent (Some (finalEvent "hello there"))))] in
  exists g added,
    run trace (init cfg) = Some g
    /\ transcripts (session g) = (transcripts (session (init cfg)) ++ added)%list
    /\ transcripts (session g) = ["hello there"].
Proof.
  intros cfg trace.
  destruct (run trace (init cfg)) as [g|] eqn:E; [|discriminate].
  destruct C9_segments_append_only as (_ & _ & _ & Hrun).
  destruct (Hrun trace (init cfg) g E) as [added Ha].
  exists g, added. split; [reflexivity|]. split; [exact Ha|].
  vm_compute in E. injection E as <-. reflexivity.
Defined.


(** C10 (agreement of [lastTranscript] with the segment list).  In the new
    session, after every result and every event handled from a state where
    it holds, and so in every state a session reaches: [lastTranscript] is
    empty exactly when the segment list is empty, and otherwise it is the
    last segment of the list. *)
Theorem C10_lastTranscript_agrees :
  (forall cfg, last_agrees (newSession cfg))
  /\ (forall result s, last_agrees s -> last_agrees (processResult result s))
  /\ (forall event s, last_agrees s -> last_agrees (processTranscriptEvent event s))
  /\ (forall cfg g, reachable cfg g -> last_agrees (session g)).
Proof.
  split; [exact newSession_last_agrees|].
  split; [exact processResult_last_agrees|].
  split; [|exact reachable_last_agrees].
  intros event s. apply processTranscriptEvent_preserves.
  exact processResult_last_agrees.
Qed.

(** After the extension example [lastTranscript] is the last segment, the
    remainder ["in left arm"]. *)
Lemma C10_lastTranscript_agrees_witness :
  let cfg := exampleConfig in
  let trace : list Label :=
    [Main (StartStream false);
     Events (EventsRecv (TranscriptEvent (Some (finalEvent "patient reports pain"))));
     Events (EventsRecv (TranscriptEvent (Some (finalEvent "patient reports pain in left arm"))))] in
  exists g,
    run trace (init cfg) = Some g
    /\ last_agrees (session g)
    /\ transcripts (session g) = ["patient reports pain"; "in left arm"]
    /\ lastTranscript (session g) = "in left arm".
Proof.
  intros cfg trace.
  destruct (run trace (init cfg)) as [g|] eqn:E; [|discriminate].
  exists g. split; [reflexivity|]. split.
  - destruct C10_lastTranscript_agrees as (_ & _ & _ & Hreach).
    apply (Hreach cfg). now exists trace.
  - vm_compute in E. injection E as <-. split; reflexivity.
Defined.


(* ================================================================== *)
(** ** What the reconciler and the archiver leave untouched            *)
(* ================================================================== *)

Lemma processResult_frame (s0 : TranscriptionSession) (result : MedicalResult)
  (s : TranscriptionSession) :
  same_frame s0 s -> same_frame s0 (processResult result s).
Proof.
  intros H.
  destruct (processResult_cases result s) as [E|[[t [_ E]]|[t E]]]; rewrite E;
    [exact H| |];
    unfold same_frame in *; simpl; rewrite !filter_app; simpl;
    rewrite !app_nil_r; exact H.
Qed.

Lemma processTranscriptEvent_frame (event : MedicalTranscript) (s : TranscriptionSession) :
  same_frame s (processTranscriptEvent event s).
Proof.
  apply processTranscriptEvent_preserves.
  - apply processResult_frame.
  - unfold same_frame. auto.
Qed.

Lemma processTranscriptEvent_errors (event : MedicalTranscript) (s : TranscriptionSession) :
  errors (processTranscriptEvent event s) = errors s.
Proof.
  unfold errors.
  destruct (processTranscriptEvent_frame event s) as (_ & _ & _ & E & _).
  now rewrite E.
Qed.

Lemma Join_nonempty (ts : list string) :
  Forall (fun seg => seg <> "") ts ->
  (strings.Join ts " " = "" <-> ts = []).
Proof.
  intros H. split; [|now intros ->].
  destruct H as [|seg rest Hseg _]; [reflexivity|].
  destruct seg as [|c seg]; [contradiction|].
  destruct rest; discriminate.
Qed.

(** The two outcomes of the archiver on a non-empty transcript. *)
Lemma saveToS3_put (timestamp : string) (putErr : bool) (s : TranscriptionSession) :
  strings.Join (transcripts s) " " <> "" ->
  let key := S3Prefix (config s) ++ "/transcription_" ++ timestamp ++ ".txt" in
  let input := {| Bucket := S3Bucket (config s); ObjectKey := key;
                  Body := strings.Join (transcripts s) " ";
                  ContentType := "text/plain" |} in
  saveToS3 timestamp putErr s =
  {| conn := conn s ++
             [if putErr
              then {| Type_ := "error"; Text := "Failed to save transcription";
                      Key := ""; Action := "" |}
              else {| Type_ := "saved"; Text := ""; Key := key; Action := "" |}];
     s3Client := s3Client s ++ [(input, putErr)];
     config := config s; transcripts := transcripts s;
     lastTranscript := lastTranscript s; ctx := ctx s |}.
Proof.
  intros H. unfold saveToS3.
  destruct (String.eqb_spec (strings.Join (transcripts s) " ") ""); [contradiction|].
  now destruct putErr.
Qed.

Lemma saveToS3_empty (timestamp : string) (putErr : bool) (s : TranscriptionSession) :
  strings.Join (transcripts s) " " = "" -> saveToS3 timestamp putErr s = s.
Proof.
  intros H. unfold saveToS3. now rewrite H.
Qed.

Lemma saveToS3_ctx (timestamp : string) (putErr : bool) (s : TranscriptionSession) :
  ctx (saveToS3 timestamp putErr s) = ctx s.
Proof.
  unfold saveToS3. destruct (_ =? ""); [reflexivity|]. now destruct putErr.
Qed.

(* ================================================================== *)
(** ** Invariants of the executions                                    *)
(* ================================================================== *)

Lemma step_segments_nonempty (l : Label) (g g' : System) :
  segments_nonempty (session g) -> step l g = Some g' ->
  segments_nonempty (session g').
Proof.
  intros Hg H.
  destruct (step_session l g g' H)
    as [E|[(_ & _ & _ & E)|[(_ & E)|[(ts & e & _ & _ & _ & _ & E)|(t & _ & _ & E)]]]];
    rewrite E; try exact Hg.
  - unfold segments_nonempty. now rewrite (proj1 (saveToS3_transcripts ts e _)).
  - apply processTranscriptEvent_preserves;
      [apply processResult_segments_nonempty|exact Hg].
Qed.

Lemma step_control_inv (l : Label) (g g' : System) :
  control_inv g -> step l g = Some g' -> control_inv g'.
Proof.
  intros [Hb Hc Hcl Hd Hs Hsv Hr] H.
  destruct l as [[]|[]|[]]; step_inv H; constructor; simpl;
    rewrite ?saveToS3_ctx,
            ?(proj1 (processTranscriptEvent_frame _ _));
    try tauto; try congruence; try (intuition congruence).
  - rewrite length_app. simpl.
    match goal with E : (_ <? _)%nat = true |- _ => apply Nat.ltb_lt in E end. lia.
  - simpl in Hb. lia.
  - simpl in Hb. lia.
Qed.

Lemma step_returned (l : Label) (g g' : System) :
  step l g = Some g' -> mainPC g = Returned -> mainPC g' = Returned.
Proof.
  intros H. destruct l as [[]|[]|[]]; step_inv H; simpl; congruence.
Qed.

Lemma errors_sendError (msg : string) (s : TranscriptionSession) :
  errors (sendError msg s) = S (errors s).
Proof.
  unfold errors. simpl. rewrite filter_app, length_app. simpl. lia.
Qed.

Lemma saveToS3_errors (timestamp : string) (putErr : bool) (s : TranscriptionSession) :
  errors (saveToS3 timestamp putErr s) <= S (errors s)
  /\ (putErr = true -> strings.Join (transcripts s) " " <> "" ->
      errors (saveToS3 timestamp putErr s) = S (errors s)).
Proof.
  destruct (String.eqb_spec (strings.Join (transcripts s) " ") "") as [E|E].
  - rewrite saveToS3_empty by assumption. split; [lia|contradiction].
  - rewrite saveToS3_put by assumption. unfold errors. simpl.
    rewrite filter_app, length_app.
    destruct putErr; simpl; split; intros; try lia; discriminate.
Qed.

Lemma step_errors_inv (l : Label) (g g' : System) :
  errors_inv g -> step l g = Some g' -> errors_inv g'.
Proof.
  intros [Hle Hz] H. unfold errors_inv.
  pose proof (step_returned l g g' H) as Hret.
  destruct (step_session l g g' H)
    as [E|[(_ & Hpc & Hpc' & E)|[(_ & E)|[(ts & e & _ & Hpc & Hpc' & Hne & E)|(t & _ & _ & E)]]]];
    rewrite E.
  - split; [exact Hle|]. intros N. apply Hz. intros R. now apply N, Hret.
  - rewrite errors_sendError, Hz by congruence. split; [lia|congruence].
  - split; [exact Hle|]. intros N. apply Hz. intros R. now apply N, Hret.
  - pose proof (proj1 (saveToS3_errors ts e (session g))) as Hs.
    rewrite Hz in Hs by congruence. split; [exact Hs|congruence].
  - rewrite processTranscriptEvent_errors.
    split; [exact Hle|]. intros N. apply Hz. intros R. now apply N, Hret.
Qed.

Lemma step_store_inv (l : Label) (g g' : System) :
  segments_nonempty (session g) -> control_inv g -> store_inv g ->
  step l g = Some g' -> store_inv g'.
Proof.
  intros Hne Hc [Hst Hsv Hput] H.
  pose proof (step_returned l g g' H) as Hret.
  destruct (step_session l g g' H)
    as [E|[(_ & Hpc & Hpc' & E)|[(_ & E)|[(ts & e & _ & Hpc & Hpc' & Hn & E)|(t & _ & Hev & E)]]]].
  - constructor; rewrite E; auto;
      intros N; apply Hst; intros R; now apply N, Hret.
  - destruct Hst as [Hs3 Hsaved]; [congruence|].
    constructor; rewrite E; simpl.
    + congruence.
    + rewrite filter_app, Hsaved. simpl. contradiction.
    + rewrite Hs3. contradiction.
  - constructor; rewrite E; simpl; auto;
      intros N; apply Hst; intros R; now apply N, Hret.
  - destruct Hst as [Hs3 Hsaved]; [congruence|].
    assert (Hjoin : strings.Join (transcripts (session g)) " " <> "").
    { intros J. now apply (Join_nonempty _ Hne) in J. }
    constructor; rewrite E, saveToS3_put by assumption; simpl.
    + congruence.
    + rewrite filter_app, Hsaved, Hs3. simpl.
      destruct e; simpl; [contradiction|].
      intros m [<-|[]]. eexists. split; [left; reflexivity|reflexivity].
    + rewrite Hs3. simpl. intros input e0 [[= <- <-]|[]]. now split.
  - assert (Hpc : mainPC g <> Returned).
    { intros R. apply (inv_returned g Hc) in R. congruence. }
    destruct (Hst Hpc) as [Hs3 Hsaved].
    destruct (processTranscriptEvent_frame t (session g)) as (_ & F3 & _ & _ & Fs).
    constructor; rewrite E, ?F3, ?Fs, ?Hs3, ?Hsaved; simpl; auto; contradiction.
Qed.

(** All of them hold in every state a session reaches. *)
Lemma init_control_inv (cfg : Config) : control_inv (init cfg).
Proof.
  constructor; simpl; try discriminate; auto.
  unfold audioChanCap. lia.
Qed.

Lemma init_store_inv (cfg : Config) : store_inv (init cfg).
Proof.
  constructor; simpl; auto; contradiction.
Qed.

Lemma reachable_inv (cfg : Config) (g : System) :
  reachable cfg g ->
  segments_nonempty (session g) /\ control_inv g /\ errors_inv g /\ store_inv g.
Proof.
  intros [ls H].
  apply (run_invariant
           (fun g => segments_nonempty (session g) /\ control_inv g
                     /\ errors_inv g /\ store_inv g)) with (ls := ls) (g := init cfg);
    [| |exact H].
  - intros l g0 g1 (Hn & Hc & He & Hs) Hstep.
    split; [eapply step_segments_nonempty; eassumption|].
    split; [eapply step_control_inv; eassumption|].
    split; [eapply step_errors_inv; eassumption|].
    eapply step_store_inv; eassumption.
  - split; [constructor|].
    split; [apply init_control_inv|].
    split; [|apply init_store_inv].
    unfold errors_inv, errors. simpl. split; [lia|reflexivity].
Qed.

Lemma reachable_step (cfg : Config) (l : Label) (g g' : System) :
  reachable cfg g -> step l g = Some g' -> reachable cfg g'.
Proof.
  intros [ls H] Hstep. exists (ls ++ [l])%list.
  rewrite run_app, H. simpl. now rewrite Hstep.
Qed.

(** Induction over the executions from the initial state, the last step
    last. *)
Lemma run_ind_last (cfg : Config) (P : list Label -> System -> Prop) :
  P [] (init cfg) ->
  (forall ls g l g',
      run ls (init cfg) = Some g -> P ls g -> step l g = Some g' ->
      P (ls ++ [l])%list g') ->
  forall ls g, run ls (init cfg) = Some g -> P ls g.
Proof.
  intros Hinit Hstep ls.
  induction ls as [|l ls IH] using rev_ind; intros g H.
  - injection H as <-. exact Hinit.
  - rewrite run_app in H.
    destruct (run ls (init cfg)) as [g0|] eqn:E; [|discriminate].
    simpl in H. destruct (step l g0) as [g1|] eqn:E1; [|discriminate].
    injection H as <-. eapply Hstep; eauto.
Qed.

Lemma enqueued_app (ls1 ls2 : list Label) :
  enqueued (ls1 ++ ls2) = (enqueued ls1 ++ enqueued ls2)%list.
Proof.
  induction ls1 as [|l ls1 IH]; [reflexivity|].
  destruct l as [[| | |m [| |]| | | |]|[]|[]]; simpl; now rewrite IH.
Qed.

Lemma completions_app (ls1 ls2 : list Label) :
  completions (ls1 ++ ls2) = completions ls1 + completions ls2.
Proof.
  induction ls1 as [|l ls1 IH]; [reflexivity|].
  destruct l as [[]|[]|[]]; simpl; now rewrite IH.
Qed.

Lemma step_forward_inv (ls : list Label) (l : Label) (g g' : System) :
  control_inv g -> forward_inv ls g -> step l g = Some g' ->
  forward_inv (ls ++ [l])%list g'.
Proof.
  intros Hc (F1 & F2 & F3) H. unfold forward_inv.
  rewrite completions_app, enqueued_app.
  destruct l as [[]|[]|[]]; step_inv H; simpl; rewrite ?Nat.add_0_r, ?app_nil_r;
    try (split; [|split]; assumption);
    (destruct (Nat.eq_dec (completions ls) 0) as [Z|NZ];
     [ specialize (F2 Z); rewrite ?Z
     | exfalso; destruct (F3 NZ) as (_ & Sx & Cl & _);
       try congruence;
       try (apply (inv_closed g Hc) in Cl; intuition congruence);
       try (match goal with
            | E : mainPC g = AtStart |- _ =>
                apply (inv_start g Hc) in E; intuition congruence
            end) ]).
  all: rewrite ?app_nil_r in F2; rewrite <- ?app_assoc; simpl.
  all: repeat split; intros; try congruence; try lia.
  all: rewrite <- F2, <- app_assoc; reflexivity.
Qed.

Lemma run_forward_inv (cfg : Config) (ls : list Label) (g : System) :
  run ls (init cfg) = Some g -> forward_inv ls g.
Proof.
  apply (run_ind_last cfg forward_inv).
  - unfold forward_inv; simpl. repeat split; auto; contradiction.
  - intros ls0 g0 l g1 Hrun Hinv Hstep.
    apply step_forward_inv with (g := g0); [|assumption|assumption].
    apply (reachable_inv cfg). now exists ls0.
Qed.

(** Once the sender has ended nothing more is sent to the recognition
    service. *)
Lemma run_sender_exited (ls : list Label) (g g' : System) :
  sender g = Exited -> mainPC g <> AtStart -> run ls g = Some g' ->
  sender g' = Exited /\ upstream g' = upstream g.
Proof.
  intros Hs Hpc H.
  cut (sender g' = Exited /\ upstream g' = upstream g /\ mainPC g' <> AtStart);
    [tauto|].
  apply (run_invariant
           (fun x => sender x = Exited /\ upstream x = upstream g
                     /\ mainPC x <> AtStart))
    with (ls := ls) (g := g); [|auto|exact H].
  intros l g0 g1 (Hx & Hu & Hp) Hstep. rewrite <- Hu.
  destruct l as [[]|[]|[]]; step_inv Hstep; simpl; repeat split; auto; congruence.
Qed.

(* ================================================================== *)
(** ** Error messages                                                  *)
(* ================================================================== *)

Lemma run_errors_mono (ls : list Label) (g g' : System) :
  run ls g = Some g' -> errors (session g) <= errors (session g').
Proof.
  intros H.
  apply (run_invariant (fun x => errors (session g) <= errors (session x)))
    with (ls := ls) (g := g); [|lia|exact H].
  intros l g0 g1 Hle Hstep.
  destruct (step_session l g0 g1 Hstep)
    as [E|[(_ & _ & _ & E)|[(_ & E)|[(ts & e & _ & _ & _ & Hne & E)|(t & _ & _ & E)]]]];
    rewrite E.
  - exact Hle.
  - rewrite errors_sendError. lia.
  - exact Hle.
  - destruct (String.eqb_spec (strings.Join (transcripts (session g0)) " ") "") as [J|J].
    + now rewrite saveToS3_empty.
    + rewrite saveToS3_put by assumption. unfold errors in *. simpl.
      rewrite filter_app, length_app. lia.
  - now rewrite processTranscriptEvent_errors.
Qed.

(** C4, as stated, fails for the send transport failing mid-stream: the
    session below starts its stream, forwards one audio frame whose send to
    the recognition service fails, is stopped by the client and ends, with
    all its tasks ended, without having sent any message at all. *)
Lemma C4_send_failure_counterexample :
  let trace : list Label :=
    [Main (StartStream false); Main (ReadBinary [Byte.x01] CaseSend);
     Sender (SenderRecv true); Main (ReadText (Some stopMessage));
     Main CloseAudio; Main Cancel; Events EventsCtxDone; Main WaitDone;
     Main (Save "2024-01-15_10-30-45" false)] in
  let final := run trace (init exampleConfig) in
  In (Sender (SenderRecv true)) trace
  /\ option_map mainPC final = Some Returned
  /\ option_map sender final = Some Exited
  /\ option_map events final = Some Exited
  /\ option_map upstream final = Some [[Byte.x01]]
  /\ option_map (fun g => conn (session g)) final = Some []
  /\ option_map (fun g => errors (session g)) final = Some 0.
Proof.
  cbv zeta. split; [simpl; tauto|]. repeat split; reflexivity.
Qed.

(** C4, amended.  In every state a session reaches: at most one error
    message has been sent; the recognition stream failing to start sends
    exactly one error message and ends the session; the storage write
    failing for a session with segments sends exactly one error message and
    ends the session; an error message once sent stays the only one; and
    the send of an audio frame failing ends the sender task without any
    message to the client. *)
Theorem C4_error_messages (cfg : Config) (g : System) :
  reachable cfg g ->
  errors (session g) <= 1
  /\ (forall g', step (StartStream true) g = Some g' ->
        mainPC g' = Returned
        /\ conn (session g') =
           (conn (session g) ++ [errorMessage "Failed to start transcription"])%list
        /\ errors (session g') = 1)
  /\ (forall timestamp g',
        transcripts (session g) <> [] ->
        step (Save timestamp true) g = Some g' ->
        mainPC g' = Returned
        /\ conn (session g') =
           (conn (session g) ++ [errorMessage "Failed to save transcription"])%list
        /\ errors (session g') = 1)
  /\ (forall g', step (SenderRecv true) g = Some g' ->
        sender g' = Exited /\ session g' = session g)
  /\ (forall ls g', run ls g = Some g' ->
        errors (session g) <= errors (session g') /\ errors (session g') <= 1).
Proof.
  intros Hr. destruct (reachable_inv cfg g Hr) as (Hn & Hc & [Hle Hz] & Hs).
  split; [exact Hle|].
  split; [|split; [|split]].
  - intros g' H.
    assert (E0 : errors (session g) = 0).
    { apply Hz. step_inv H. congruence. }
    step_inv H. simpl. repeat split.
    change (errors (sendError "Failed to start transcription" (session g)) = 1).
    now rewrite errors_sendError, E0.
  - intros timestamp g' Hne H.
    assert (E0 : errors (session g) = 0).
    { apply Hz. step_inv H; congruence. }
    assert (J : strings.Join (transcripts (session g)) " " <> "").
    { intros J. now apply (Join_nonempty _ Hn) in J. }
    pose proof (proj2 (saveToS3_errors timestamp true (session g)) eq_refl J) as E1.
    step_inv H; simpl.
    + rewrite E1, E0, saveToS3_put by assumption. now repeat split.
    + destruct (transcripts (session g)); [contradiction|discriminate].
  - intros g' H. step_inv H; simpl; auto.
  - intros ls g' H. split; [now apply run_errors_mono in H|].
    assert (Hr' : reachable cfg g').
    { destruct Hr as [ls0 H0]. exists (ls0 ++ ls)%list. now rewrite run_app, H0. }
    apply (reachable_inv cfg g' Hr').
Qed.

(** A session that accepted one segment and whose storage write fails sends
    the one error message of the archiver. *)
Lemma C4_error_messages_witness :
  let cfg := exampleConfig in
  let trace : list Label :=
    [Main (StartStream false);
     Events (EventsRecv (TranscriptEvent (Some (finalEvent "hello there"))));
     Main (ReadText (Some stopMessage)); Main CloseAudio; Main Cancel;
     Sender SenderCtxDone; Events EventsCtxDone; Main WaitDone] in
  exists g g',
    run trace (init cfg) = Some g
    /\ step (Save "2024-01-15_10-30-45" true) g = Some g'
    /\ conn (session g') =
       [finalMessage "hello there"; errorMessage "Failed to save transcription"]
    /\ errors (session g') = 1.
Proof.
  intros cfg trace.
  destruct (run trace (init cfg)) as [g|] eqn:E; [|discriminate].
  destruct (step (Save "2024-01-15_10-30-45" true) g) as [g'|] eqn:E';
    [|vm_compute in E; injection E as <-; discriminate].
  exists g, g'. split; [reflexivity|]. split; [exact E'|].
  assert (Hr : reachable cfg g) by (exists trace; exact E).
  destruct (C4_error_messages cfg g Hr) as (_ & _ & Hsave & _).
  assert (Hne : transcripts (session g) <> []).
  { vm_compute in E. injection E as <-. discriminate. }
  destruct (Hsave _ g' Hne E') as (_ & Hconn & Herr).
  split; [|exact Herr].
  rewrite Hconn. vm_compute in E. injection E as <-. reflexivity.
Defined.

(* ================================================================== *)
(** ** The end-of-stream send                                          *)
(* ================================================================== *)

Lemma empty_payloads_app (xs ys : list AudioFrame) :
  empty_payloads (xs ++ ys) = empty_payloads xs + empty_payloads ys.
Proof.
  unfold empty_payloads. now rewrite filter_app, length_app.
Qed.

(** C5, as stated, fails, towards zero and towards more than one.  After
    the read loop [handleConnection] closes the queue and cancels the
    context at once, and the [select] of the sender may then take the case
    of the cancelled context: in the first session below the queue is
    closed, every task has ended, one audio frame was forwarded, and no
    empty payload was ever sent.  In the second the sender has returned on a
    failed send before the queue is closed: again no empty payload is sent.
    In the third the client sends two binary messages of length zero between
    its audio frames; the read loop enqueues them and the sender forwards
    them as they are, so that the recognition service receives three empty
    payloads, two of them followed by further sends, although the branch of
    the closed queue is taken once. *)
Lemma C5_end_of_stream_counterexample :
  let cfg := exampleConfig in
  let trace : list Label :=
    [Main (StartStream false); Main (ReadBinary [Byte.x01] CaseSend);
     Sender (SenderRecv false); Main (ReadText (Some stopMessage));
     Main CloseAudio; Main Cancel; Sender SenderCtxDone;
     Events EventsCtxDone; Main WaitDone;
     Main (Save "2024-01-15_10-30-45" false)] in
  let final := run trace (init cfg) in
  let failed : list Label :=
    [Main (StartStream false); Main (ReadBinary [Byte.x01] CaseSend);
     Sender (SenderRecv true); Main (ReadText (Some stopMessage));
     Main CloseAudio; Main Cancel; Events EventsCtxDone; Main WaitDone;
     Main (Save "2024-01-15_10-30-45" false)] in
  let final' := run failed (init cfg) in
  let silence : list Label :=
    [Main (StartStream false);
     Main (ReadBinary [] CaseSend); Sender (SenderRecv false);
     Main (ReadBinary [Byte.x01] CaseSend); Sender (SenderRecv false);
     Main (ReadBinary [] CaseSend); Sender (SenderRecv false);
     Main (ReadBinary [Byte.x02] CaseSend); Sender (SenderRecv false);
     Main (ReadText (Some stopMessage)); Main CloseAudio;
     Sender SenderClosed; Main Cancel; Events EventsCtxDone; Main WaitDone;
     Main (Save "2024-01-15_10-30-45" false)] in
  let final'' := run silence (init cfg) in
  option_map (fun g => closed (audioChan g)) final = Some true
  /\ option_map mainPC final = Some Returned
  /\ option_map sender final = Some Exited
  /\ option_map events final = Some Exited
  /\ option_map upstream final = Some [[Byte.x01]]
  /\ completions trace = 0
  /\ option_map (fun g => closed (audioChan g)) final' = Some true
  /\ option_map mainPC final' = Some Returned
  /\ option_map sender final' = Some Exited
  /\ option_map upstream final' = Some [[Byte.x01]]
  /\ completions failed = 0
  /\ option_map (fun g => closed (audioChan g)) final'' = Some true
  /\ option_map mainPC final'' = Some Returned
  /\ option_map sender final'' = Some Exited
  /\ option_map upstream final'' = Some [[]; [Byte.x01]; []; [Byte.x02]; []]
  /\ option_map (fun g => empty_payloads (upstream g)) final'' = Some 3
  /\ completions silence = 1.
Proof.
  cbv zeta. repeat split; reflexivity.
Qed.

(** C5, amended.  Along every execution of a session the sender takes the
    branch of the closed queue at most once.  When it has taken it, the
    queue was closed and drained, what was sent to the recognition service
    is every frame enqueued, in order, followed by the empty payload of that
    branch, the sender has ended, and nothing more is ever sent.  As long as
    it has not taken it (it may end through the cancelled context, the
    closed [doneChan] or a failed send instead), what was sent and what
    waits in the queue are together the frames enqueued: no end-of-stream
    send was made.

    The empty payload is not reserved to that branch: the empty payloads
    sent and those waiting in the queue are the binary messages of length
    zero that the read loop has enqueued, plus the one of the closed queue
    if that branch was taken.  Only when no message of length zero has been
    enqueued does the recognition service receive an empty payload exactly
    as often as the branch was taken, at most once; it is then the last
    payload, after every frame enqueued, and no send follows it. *)
Theorem C5_end_of_stream_send (cfg : Config) (ls : list Label) (g : System) :
  run ls (init cfg) = Some g ->
  completions ls <= 1
  /\ (completions ls = 1 ->
       sender g = Exited
       /\ closed (audioChan g) = true
       /\ buf (audioChan g) = []
       /\ upstream g = (enqueued ls ++ [[]])%list
       /\ forall ls' g', run ls' g = Some g' -> upstream g' = upstream g)
  /\ (completions ls = 0 ->
       (upstream g ++ buf (audioChan g))%list = enqueued ls)
  /\ (forall g', step SenderClosed g = Some g' ->
       closed (audioChan g) = true /\ buf (audioChan g) = []
       /\ upstream g' = (upstream g ++ [[]])%list /\ sender g' = Exited)
  /\ empty_payloads (upstream g) + empty_payloads (buf (audioChan g))
     = empty_payloads (enqueued ls) + completions ls
  /\ (empty_payloads (enqueued ls) = 0 ->
       empty_payloads (upstream g) = completions ls
       /\ empty_payloads (upstream g) <= 1
       /\ (empty_payloads (upstream g) = 1 ->
            sender g = Exited
            /\ upstream g = (enqueued ls ++ [[]])%list
            /\ forall ls' g', run ls' g = Some g' -> upstream g' = upstream g)).
Proof.
  intros H. destruct (run_forward_inv cfg ls g H) as (F1 & F2 & F3).
  assert (Hc : control_inv g) by (apply (reachable_inv cfg); now exists ls).
  assert (Hle : completions ls <= 1).
  { destruct (Nat.eq_dec (completions ls) 0) as [Z|NZ]; [lia|].
    destruct (F3 NZ) as [E _]. lia. }
  assert (Hone : completions ls = 1 ->
                 sender g = Exited
                 /\ closed (audioChan g) = true
                 /\ buf (audioChan g) = []
                 /\ upstream g = (enqueued ls ++ [[]])%list
                 /\ forall ls' g', run ls' g = Some g' -> upstream g' = upstream g).
  { intros E. destruct F3 as (_ & Sx & Cl & Bf & Up); [lia|].
    repeat split; auto.
    intros ls' g' H'. apply (run_sender_exited ls' g g'); auto.
    apply (inv_closed g Hc Cl). }
  assert (Hcount : empty_payloads (upstream g) + empty_payloads (buf (audioChan g))
                   = empty_payloads (enqueued ls) + completions ls).
  { destruct (Nat.eq_dec (completions ls) 0) as [Z|NZ].
    - rewrite <- (F2 Z), empty_payloads_app, Z. lia.
    - destruct (F3 NZ) as (E & _ & _ & Bf & Up).
      rewrite Up, Bf, E, empty_payloads_app.
      change (empty_payloads [[]]) with 1. change (empty_payloads []) with 0. lia. }
  split; [exact Hle|]. split; [exact Hone|]. split; [exact F2|].
  split; [|split; [exact Hcount|]].
  - intros g' Hs. step_inv Hs. simpl. auto.
  - intros Hnone.
    assert (Hup : empty_payloads (upstream g) = completions ls).
    { destruct (Nat.eq_dec (completions ls) 0) as [Z|NZ].
      - pose proof (F2 Z) as E. rewrite <- E, empty_payloads_app in Hnone. lia.
      - destruct (F3 NZ) as (_ & _ & _ & Bf & _).
        rewrite Bf in Hcount. change (empty_payloads []) with 0 in Hcount. lia. }
    split; [exact Hup|]. split; [lia|].
    intros E. rewrite Hup in E. destruct (Hone E) as (Sx & _ & _ & Up & Hno).
    auto.
Qed.

(** A session whose sender finds the queue closed before it looks at the
    context: the frame, then the empty payload, the only one. *)
Lemma C5_end_of_stream_send_witness :
  let cfg := exampleConfig in
  let trace : list Label :=
    [Main (StartStream false); Main (ReadBinary [Byte.x01] CaseSend);
     Main (ReadText (Some stopMessage)); Main CloseAudio;
     Sender (SenderRecv false); Sender SenderClosed; Main Cancel;
     Events EventsCtxDone; Main WaitDone;
     Main (Save "2024-01-15_10-30-45" false)] in
  exists g,
    run trace (init cfg) = Some g
    /\ completions trace = 1
    /\ upstream g = [[Byte.x01]; []]
    /\ sender g = Exited
    /\ empty_payloads (enqueued trace) = 0
    /\ empty_payloads (upstream g) = 1.
Proof.
  intros cfg trace.
  destruct (run trace (init cfg)) as [g|] eqn:E; [|discriminate].
  exists g. split; [reflexivity|]. split; [reflexivity|].
  destruct (C5_end_of_stream_send cfg trace g E) as (_ & Hone & _ & _ & _ & Hnone).
  destruct (Hone eq_refl) as (Hs & _ & _ & Hu & _).
  destruct (Hnone eq_refl) as (Hup & _).
  split; [exact Hu|]. split; [exact Hs|]. split; [reflexivity|exact Hup].
Defined.

(* ================================================================== *)
(** ** The audio queue                                                 *)
(* ================================================================== *)

(** C6 (bounded queue, drop on overflow).  The queue holds at most 100
    frames.  In every state a session reaches while it reads from its
    client, a binary message can always be handled (the producer is never
    blocked); when the queue is full the message is dropped and the whole
    state, the queue with it, stays as it is; when the queue has room the
    message is put at its end. *)
Theorem C6_audio_queue_push (cfg : Config) (g : System) (message : AudioFrame) :
  reachable cfg g ->
  mainPC g = AtRead ->
  audioChanCap = 100
  /\ List.length (buf (audioChan g)) <= audioChanCap
  /\ (exists c g', step (ReadBinary message c) g = Some g')
  /\ (forall c g',
        step (ReadBinary message c) g = Some g' ->
        mainPC g' = AtRead
        /\ (List.length (buf (audioChan g)) = audioChanCap ->
            c = CaseDefault /\ g' = g)
        /\ (List.length (buf (audioChan g)) < audioChanCap ->
            c = CaseSend
            /\ buf (audioChan g') = (buf (audioChan g) ++ [message])%list
            /\ closed (audioChan g') = closed (audioChan g)
            /\ session g' = session g)).
Proof.
  intros Hr Hpc. destruct (reachable_inv cfg g Hr) as (_ & Hc & _ & _).
  assert (Hctx : ctx (session g) = false).
  { destruct (ctx (session g)) eqn:E; [|reflexivity].
    destruct (inv_ctx g Hc E) as [X|[X|X]]; congruence. }
  pose proof (inv_bound g Hc) as Hb.
  split; [reflexivity|]. split; [exact Hb|]. split.
  - unfold step, handleConnection, forwardAudio, at_pc. rewrite Hpc, Hctx.
    destruct (List.length (buf (audioChan g)) <? audioChanCap)%nat eqn:E.
    + exists CaseSend. simpl. eauto.
    + exists CaseDefault. simpl. eauto.
  - intros c g' H. unfold step, handleConnection, forwardAudio, at_pc in H. rewrite Hpc, Hctx in H.
    destruct (Nat.ltb_spec (List.length (buf (audioChan g))) audioChanCap) as [L|L];
      destruct c; simpl in H; try discriminate; injection H as <-; simpl;
      (split; [exact Hpc|]); split; intros; try lia; auto.
Qed.

(** The queue of a session that was sent a hundred frames without any being
    taken is full: the next frame is dropped. *)
Lemma C6_audio_queue_push_witness :
  let cfg := exampleConfig in
  let trace :=
    Main (StartStream false) :: repeat (Main (ReadBinary [Byte.x01] CaseSend)) 100 in
  exists g,
    run trace (init cfg) = Some g
    /\ List.length (buf (audioChan g)) = 100
    /\ step (ReadBinary [Byte.x02] CaseSend) g = None
    /\ step (ReadBinary [Byte.x02] CaseDefault) g = Some g.
Proof.
  intros cfg trace.
  destruct (run trace (init cfg)) as [g|] eqn:E; [|vm_compute in E; discriminate].
  exists g. split; [reflexivity|].
  assert (Hr : reachable cfg g) by (exists trace; exact E).
  assert (Hpc : mainPC g = AtRead).
  { vm_compute in E. injection E as <-. reflexivity. }
  assert (Hlen : List.length (buf (audioChan g)) = 100).
  { vm_compute in E. injection E as <-. reflexivity. }
  destruct (C6_audio_queue_push cfg g [Byte.x02] Hr Hpc)
    as (_ & _ & (c & g' & Hstep) & Hall).
  destruct (Hall c g' Hstep) as (_ & Hfull & _).
  destruct (Hfull Hlen) as [-> ->].
  split; [exact Hlen|]. split; [|exact Hstep].
  unfold step, handleConnection, forwardAudio, at_pc. rewrite Hpc, Hlen. reflexivity.
Defined.

(* ================================================================== *)
(** ** The archiver                                                    *)
(* ================================================================== *)

(** C7 (no archive of an empty transcript).  In every state a session
    reaches: the segment list is empty exactly when the joined text is; with
    no accepted segment, no storage write has been made and no saved message
    sent, and the last step of [handleConnection] leaves the session as it
    is; called on an empty joined text the archiver does nothing; and every
    saved message carries the key of a storage write that succeeded and
    whose body is the joined, non-empty transcript. *)
Theorem C7_archiver_empty_transcript (cfg : Config) (g : System) :
  reachable cfg g ->
  (transcripts (session g) = [] <-> strings.Join (transcripts (session g)) " " = "")
  /\ (transcripts (session g) = [] ->
       s3Client (session g) = []
       /\ (forall m, In m (conn (session g)) -> is_saved m = false)
       /\ (forall timestamp putErr g',
             step (Save timestamp putErr) g = Some g' -> session g' = session g))
  /\ (forall timestamp putErr,
        strings.Join (transcripts (session g)) " " = "" ->
        saveToS3 timestamp putErr (session g) = session g)
  /\ (forall m,
        In m (conn (session g)) -> is_saved m = true ->
        exists input,
          In (input, false) (s3Client (session g))
          /\ ObjectKey input = Key m
          /\ Body input = strings.Join (transcripts (session g)) " "
          /\ Body input <> "").
Proof.
  intros Hr. destruct (reachable_inv cfg g Hr) as (Hn & _ & _ & [Hst Hsv Hput]).
  split; [symmetry; apply Join_nonempty, Hn|].
  split; [|split].
  - intros Hnil.
    assert (Hs3 : s3Client (session g) = []).
    { destruct (s3Client (session g)) as [|[input e] rest] eqn:E; [reflexivity|].
      destruct (Hput input e) as [Hb Hne]; [now left|].
      rewrite Hnil in Hb. simpl in Hb. congruence. }
    split; [exact Hs3|]. split.
    + intros m Hin. destruct (is_saved m) eqn:E; [|reflexivity].
      destruct (Hsv m) as (input & Hi & _); [now apply filter_In|].
      rewrite Hs3 in Hi. contradiction.
    + intros timestamp putErr g' H. step_inv H; simpl; auto.
      rewrite Hnil in *. discriminate.
  - intros timestamp putErr. apply saveToS3_empty.
  - intros m Hin Hsaved.
    destruct (Hsv m) as (input & Hi & Hk); [now apply filter_In|].
    exists input. destruct (Hput input false Hi) as [Hb Hne]. auto.
Qed.

(** The end-to-end scenario of the specification: one final text, then the
    stop command; the saved message carries the key of the write. *)
Lemma C7_archiver_empty_transcript_witness :
  let cfg := exampleConfig in
  let trace : list Label :=
    [Main (StartStream false);
     Events (EventsRecv (TranscriptEvent (Some (finalEvent "hello there"))));
     Main (ReadText (Some stopMessage)); Main CloseAudio; Main Cancel;
     Sender SenderCtxDone; Events EventsCtxDone; Main WaitDone;
     Main (Save "2024-01-15_10-30-45" false)] in
  exists g input,
    run trace (init cfg) = Some g
    /\ In (input, false) (s3Client (session g))
    /\ ObjectKey input = "medical-transcriptions/transcription_2024-01-15_10-30-45.txt"
    /\ Body input = "hello there".
Proof.
  intros cfg trace.
  destruct (run trace (init cfg)) as [g|] eqn:E; [|discriminate].
  assert (Hr : reachable cfg g) by (exists trace; exact E).
  destruct (C7_archiver_empty_transcript cfg g Hr) as (_ & _ & _ & Hsaved).
  destruct (Hsaved {| Type_ := "saved"; Text := "";
                      Key := "medical-transcriptions/transcription_2024-01-15_10-30-45.txt";
                      Action := "" |})
    as (input & Hin & Hkey & Hbody & _).
  - vm_compute in E. injection E as <-. simpl. tauto.
  - reflexivity.
  - exists g, input. split; [reflexivity|]. split; [exact Hin|].
    split; [exact Hkey|]. rewrite Hbody.
    vm_compute in E. injection E as <-. reflexivity.
Defined.

(* ================================================================== *)
(** ** The end-to-end scenario of the specification                    *)
(* ================================================================== *)

(** The client sends five audio frames, the service answers the partial
    texts ["hel"] and ["hello"] and the final text ["hello there"], and the
    client stops: the session forwards the five frames, sends the two
    partial messages, one final message and one saved message, and ends. *)
Example end_to_end_scenario :
  let frame := [Byte.x00; Byte.x01] in
  let trace : list Label :=
    (Main (StartStream false)
     :: repeat (Main (ReadBinary frame CaseSend)) 5
     ++ repeat (Sender (SenderRecv false)) 5
     ++ [Events (EventsRecv (TranscriptEvent (Some {| Results := [partialResult "hel"] |})));
         Events (EventsRecv (TranscriptEvent (Some {| Results := [partialResult "hello"] |})));
         Events (EventsRecv (TranscriptEvent (Some (finalEvent "hello there"))));
         Main (ReadText (Some stopMessage)); Main CloseAudio; Sender SenderClosed;
         Main Cancel; Events EventsCtxDone; Main WaitDone;
         Main (Save "2024-01-15_10-30-45" false)])%list in
  let final := run trace (init exampleConfig) in
  option_map mainPC final = Some Returned
  /\ option_map upstream final = Some (repeat frame 5 ++ [[]])%list
  /\ option_map (fun g => transcripts (session g)) final = Some ["hello there"]
  /\ option_map (fun g => conn (session g)) final
     = Some [ {| Type_ := "partial"; Text := "hel"; Key := ""; Action := "" |};
              {| Type_ := "partial"; Text := "hello"; Key := ""; Action := "" |};
              finalMessage "hello there";
              {| Type_ := "saved"; Text := "";
                 Key := "medical-transcriptions/transcription_2024-01-15_10-30-45.txt";
                 Action := "" |} ].
Proof.
  cbv zeta. repeat split; vm_compute; reflexivity.
Qed.

(* ================================================================== *)
(** ** The configuration of the process                                *)
(* ================================================================== *)

Example ParseInt_examples :
  strconv.ParseInt "16000" 32 = (16000%Z, None)
  /\ strconv.ParseInt "+8000" 32 = (8000%Z, None)
  /\ strconv.ParseInt "-5" 32 = ((-5)%Z, None)
  /\ strconv.ParseInt "0044100" 32 = (44100%Z, None)
  /\ strconv.ParseInt "2147483647" 32 = (2147483647%Z, None)
  /\ strconv.ParseInt "2147483648" 32 = (2147483647%Z, Some strconv.ErrRange)
  /\ strconv.ParseInt "-2147483648" 32 = ((-2147483648)%Z, None)
  /\ strconv.ParseInt "-2147483649" 32 = ((-2147483648)%Z, Some strconv.ErrRange)
  /\ strconv.ParseInt "99999999999999999999999" 32
     = (2147483647%Z, Some strconv.ErrRange)
  /\ strconv.ParseInt "" 32 = (0%Z, Some strconv.ErrSyntax)
  /\ strconv.ParseInt "-" 32 = (0%Z, Some strconv.ErrSyntax)
  /\ strconv.ParseInt " 16000" 32 = (0%Z, Some strconv.ErrSyntax)
  /\ strconv.ParseInt "16_000" 32 = (0%Z, Some strconv.ErrSyntax)
  /\ strconv.ParseInt "16k" 32 = (0%Z, Some strconv.ErrSyntax)
  /\ strconv.ParseInt "1.6e4" 32 = (0%Z, Some strconv.ErrSyntax).
Proof. repeat split; vm_compute; reflexivity. Qed.

Lemma uint_value_acc (d : Decimal.uint) (p : positive) :
  Z.pos (Pos.of_uint_acc d p) = uint_value d (Z.pos p).
Proof.
  revert p. induction d; intros p; cbn [Pos.of_uint_acc uint_value];
    [reflexivity|..]; rewrite IHd; f_equal; lia.
Qed.

Lemma uint_value_of_uint (d : Decimal.uint) :
  Z.of_uint d = uint_value d 0.
Proof.
  unfold Z.of_uint.
  induction d; cbn [Pos.of_uint uint_value Z.of_N];
    [reflexivity|exact IHd|..]; apply uint_value_acc.
Qed.

Lemma uint_value_ge (d : Decimal.uint) (n : Z) :
  (0 <= n -> n <= uint_value d n)%Z.
Proof.
  revert n. induction d; intros n Hn; cbn [uint_value]; [lia|..];
    (etransitivity; [|apply IHd]; lia).
Qed.

(** One round of the loop of [ParseUint] on a decimal digit. *)
Lemma parse_digits_step (c : ascii) (t : string) (maxVal n k : Z) :
  byte_val c = (48 + k)%Z -> (0 <= k <= 9)%Z ->
  (0 <= n <= maxVal)%Z -> (maxVal <= 2 ^ 32 - 1)%Z ->
  strconv.parse_digits (String c t) maxVal n =
  if (10 * n + k <=? maxVal)%Z
  then strconv.parse_digits t maxVal (10 * n + k)
  else (maxVal, Some strconv.ErrRange).
Proof.
  intros Hc Hk Hn Hmax. cbn [strconv.parse_digits]. rewrite Hc.
  assert (Hcut : strconv.cutoff10 = 1844674407370955162%Z) by reflexivity.
  assert (H32 : (2 ^ 32 = 4294967296)%Z) by reflexivity.
  assert (H64 : (2 ^ 64 = 18446744073709551616)%Z) by reflexivity.
  replace ((48 <=? 48 + k)%Z && (48 + k <=? 57)%Z) with true
    by (symmetry; apply andb_true_intro; split; apply Z.leb_le; lia).
  cbv zeta.
  destruct (Z.geb_spec n strconv.cutoff10) as [G|_]; [lia|].
  unfold strconv.uint64. rewrite H64.
  rewrite (Z.mod_small (n * 10)) by lia.
  replace (48 + k - 48)%Z with k by lia.
  rewrite (Z.mod_small (n * 10 + k)) by lia.
  replace (n * 10 + k)%Z with (10 * n + k)%Z by lia.
  destruct (Z.ltb_spec (10 * n + k) (n * 10)) as [L|_]; [lia|].
  destruct (Z.ltb_spec maxVal (10 * n + k)), (Z.leb_spec (10 * n + k) maxVal);
    try lia; reflexivity.
Qed.

Lemma parse_digits_uint (d : Decimal.uint) (maxVal n : Z) :
  (0 <= n <= maxVal)%Z -> (maxVal <= 2 ^ 32 - 1)%Z ->
  strconv.parse_digits (NilEmpty.string_of_uint d) maxVal n =
  if (uint_value d n <=? maxVal)%Z
  then (uint_value d n, None)
  else (maxVal, Some strconv.ErrRange).
Proof.
  intros Hn Hmax. revert n Hn.
  induction d as [|d IHd|d IHd|d IHd|d IHd|d IHd|d IHd|d IHd|d IHd|d IHd|d IHd];
    intros n Hn; cbn [NilEmpty.string_of_uint uint_value].
  1: { cbn [strconv.parse_digits].
       destruct (Z.leb_spec n maxVal); [reflexivity|lia]. }
  1: { rewrite (parse_digits_step _ _ _ _ 0) by (try reflexivity; lia).
       rewrite Z.add_0_r.
       destruct (Z.leb_spec (10 * n) maxVal) as [L|L]; [apply IHd; lia|].
       pose proof (uint_value_ge d (10 * n)).
       destruct (Z.leb_spec (uint_value d (10 * n)) maxVal); [lia|reflexivity]. }
  all: match goal with
       | |- context [uint_value ?u (10 * ?m + ?k)] =>
           rewrite (parse_digits_step _ _ _ _ k) by (try reflexivity; lia);
           destruct (Z.leb_spec (10 * m + k) maxVal) as [L|L]; [apply IHd; lia|];
           pose proof (uint_value_ge u (10 * m + k));
           destruct (Z.leb_spec (uint_value u (10 * m + k)) maxVal); [lia|reflexivity]
       end.
Qed.

Lemma string_of_uint_digit (d : Decimal.uint) :
  d <> Decimal.Nil ->
  exists c t, NilEmpty.string_of_uint d = String c t
              /\ (48 <= byte_val c <= 57)%Z.
Proof.
  destruct d; [congruence|..]; intros _; eexists; eexists;
    (split; [reflexivity|vm_compute; split; discriminate]).
Qed.

(** [ParseUint] on a sequence of digits. *)
Lemma ParseUint_uint (d : Decimal.uint) :
  d <> Decimal.Nil ->
  strconv.ParseUint (NilEmpty.string_of_uint d) 32 =
  if (Z.of_uint d <=? 2 ^ 32 - 1)%Z
  then (Z.of_uint d, None)
  else ((2 ^ 32 - 1)%Z, Some strconv.ErrRange).
Proof.
  intros Hd. destruct (string_of_uint_digit d Hd) as (c & t & E & _).
  unfold strconv.ParseUint. rewrite E. cbn [String.eqb]. rewrite <- E.
  change ((if (32 =? 0)%Z then 64 else 32)%Z) with 32%Z. cbv zeta.
  change ((32 <? 0)%Z || (64 <? 32)%Z) with false. cbv iota.
  rewrite uint_value_of_uint. apply parse_digits_uint; lia.
Qed.

(** [ParseInt] reads back the decimal numeral of every 32-bit integer and
    answers a range error on the numeral of any other integer. *)
Lemma ParseInt_decimal (n : Z) :
  strconv.ParseInt (decimal n) 32 =
  if ((- 2 ^ 31 <=? n) && (n <? 2 ^ 31))%Z then (n, None)
  else if (n <? 0)%Z then ((- 2 ^ 31)%Z, Some strconv.ErrRange)
       else ((2 ^ 31 - 1)%Z, Some strconv.ErrRange).
Proof.
  unfold decimal.
  assert (Hof : Z.of_int (Z.to_int n) = n) by apply DecimalZ.of_to.
  assert (H31 : (2 ^ 31 = 2147483648)%Z) by reflexivity.
  assert (H32 : (2 ^ 32 = 4294967296)%Z) by reflexivity.
  destruct n as [|p|p]; [vm_compute; reflexivity|..];
    cbn [Z.to_int NilZero.string_of_int Z.of_int] in *;
    pose proof (Unsigned.to_uint_nonnil p) as Hnil;
    destruct (string_of_uint_digit _ Hnil) as (c & t & E & Hc);
    assert (Hs : NilZero.string_of_uint (Pos.to_uint p)
                 = NilEmpty.string_of_uint (Pos.to_uint p))
      by (unfold NilZero.string_of_uint; now destruct (Pos.to_uint p));
    rewrite Hs.
  - unfold strconv.ParseInt. rewrite E.
    destruct (Z.eqb_spec (byte_val c) 45) as [X|_]; [lia|].
    destruct (Z.eqb_spec (byte_val c) 43) as [X|_]; [lia|].
    cbn [orb negb andb]. rewrite <- E, ParseUint_uint, Hof by assumption.
    change ((if (32 =? 0)%Z then 64 else 32)%Z) with 32%Z.
    change (32 - 1)%Z with 31%Z. cbv zeta. rewrite H31, H32. cbn [Z.opp].
    destruct (Z.leb_spec (Z.pos p) (4294967296 - 1));
      destruct (Z.geb_spec (Z.pos p) 2147483648);
      destruct (Z.leb_spec (- 2147483648) (Z.pos p));
      destruct (Z.ltb_spec (Z.pos p) 2147483648);
      destruct (Z.ltb_spec (Z.pos p) 0);
      cbn [andb]; try lia; try reflexivity.
    all: destruct (Z.geb_spec (4294967296 - 1) 2147483648); try lia; reflexivity.
  - unfold strconv.ParseInt.
    change (byte_val "-") with 45%Z. cbn [Z.eqb Pos.eqb orb negb andb].
    rewrite ParseUint_uint by assumption.
    assert (Hof' : Z.of_uint (Pos.to_uint p) = Z.pos p) by lia.
    rewrite Hof'.
    change ((if (32 =? 0)%Z then 64 else 32)%Z) with 32%Z.
    change (32 - 1)%Z with 31%Z. cbv zeta. rewrite H31, H32. cbn [Z.opp].
    destruct (Z.leb_spec (Z.pos p) (4294967296 - 1));
      destruct (Z.gtb_spec (Z.pos p) 2147483648);
      destruct (Z.leb_spec (- 2147483648) (Z.neg p));
      destruct (Z.ltb_spec (Z.neg p) 2147483648);
      destruct (Z.ltb_spec (Z.neg p) 0);
      cbn [andb]; try lia; try reflexivity.
    all: destruct (Z.gtb_spec (4294967296 - 1) 2147483648); try lia; reflexivity.
Qed.

Lemma parse_digits_range (s : string) (maxVal n v : Z) :
  (0 <= n <= maxVal)%Z ->
  strconv.parse_digits s maxVal n = (v, None) -> (0 <= v <= maxVal)%Z.
Proof.
  revert n. induction s as [|c t IH]; intros n Hn; cbn [strconv.parse_digits].
  - intros [= <-]. exact Hn.
  - destruct ((48 <=? byte_val c)%Z && (byte_val c <=? 57)%Z); [|discriminate].
    cbv zeta. destruct (n >=? strconv.cutoff10)%Z; [discriminate|].
    destruct (Z.ltb_spec (strconv.uint64 (strconv.uint64 (n * 10) + (byte_val c - 48)))
                (strconv.uint64 (n * 10))); [discriminate|].
    destruct (Z.ltb_spec maxVal
                (strconv.uint64 (strconv.uint64 (n * 10) + (byte_val c - 48))));
      [discriminate|].
    cbn [orb]. apply IH. split; [|assumption].
    unfold strconv.uint64 at 1. apply Z.mod_pos_bound. reflexivity.
Qed.

Lemma parse_digits_ErrRange (s : string) (maxVal n un : Z) :
  strconv.parse_digits s maxVal n = (un, Some strconv.ErrRange) -> un = maxVal.
Proof.
  revert n. induction s as [|c t IH]; intros n; cbn [strconv.parse_digits].
  - discriminate.
  - destruct (_ && _); [|discriminate]. cbv zeta.
    destruct (_ >=? _)%Z; [now intros [= <-]|].
    destruct (_ || _); [now intros [= <-]|]. apply IH.
Qed.

(** A numeral that [ParseInt] accepts for 32 bits denotes a 32-bit
    integer, which the conversion [int32] leaves as it is. *)
Lemma ParseInt_range (s : string) (v : Z) :
  strconv.ParseInt s 32 = (v, None) ->
  (- 2 ^ 31 <= v < 2 ^ 31)%Z /\ Process.int32 v = v.
Proof.
  intros H.
  assert (R : (- 2 ^ 31 <= v < 2 ^ 31)%Z).
  { unfold strconv.ParseInt in H. destruct s as [|c t]; [discriminate|].
    cbv zeta in H.
    destruct (strconv.ParseUint _ 32) as [un err] eqn:E.
    assert (Hun : err = None -> (0 <= un)%Z).
    { intros ->. unfold strconv.ParseUint in E.
      destruct (_ =? _)%string; [discriminate|].
      change ((if (32 =? 0)%Z then 64 else 32)%Z) with 32%Z in E. cbv zeta in E.
      change ((32 <? 0)%Z || (64 <? 32)%Z) with false in E. cbv iota in E.
      apply parse_digits_range in E; [lia|].
      assert ((2 ^ 32 = 4294967296)%Z) by reflexivity. lia. }
    assert (Hmax : err = Some strconv.ErrRange -> un = (2 ^ 32 - 1)%Z).
    { intros ->. unfold strconv.ParseUint in E.
      destruct (_ =? _)%string; [discriminate|].
      change ((if (32 =? 0)%Z then 64 else 32)%Z) with 32%Z in E. cbv zeta in E.
      change ((32 <? 0)%Z || (64 <? 32)%Z) with false in E. cbv iota in E.
      now apply parse_digits_ErrRange in E. }
    change ((if (32 =? 0)%Z then 64 else 32)%Z) with 32%Z in H.
    change (32 - 1)%Z with 31%Z in H. cbv zeta in H.
    assert (H31 : (2 ^ 31 = 2147483648)%Z) by reflexivity.
    assert (H32 : (2 ^ 32 = 4294967296)%Z) by reflexivity.
    destruct err as [[| |]|]; try discriminate.
    - specialize (Hmax eq_refl).
      destruct (byte_val c =? 45)%Z; cbn [negb andb] in H.
      + destruct (Z.gtb_spec un (2 ^ 31)); [discriminate|lia].
      + destruct (Z.geb_spec un (2 ^ 31)); [discriminate|lia].
    - specialize (Hun eq_refl).
      destruct (byte_val c =? 45)%Z; cbn [negb andb] in H.
      + destruct (Z.gtb_spec un (2 ^ 31)); [discriminate|].
        injection H as <-. lia.
      + destruct (Z.geb_spec un (2 ^ 31)); [discriminate|].
        injection H as <-. lia. }
  split; [exact R|].
  unfold Process.int32.
  assert ((2 ^ 31 = 2147483648)%Z) by reflexivity.
  assert ((2 ^ 32 = 4294967296)%Z) by reflexivity.
  rewrite Z.mod_small; lia.
Qed.

(** X1.  Whatever the environment, [loadConfig] gives a configuration whose
    regions, prefix, language, specialty and type are not empty: each is the
    value of its variable when that is set to a non-empty text, and its
    default when the variable is not set or set to the empty text.  The
    bucket and the credentials have no default and are empty when not
    set. *)
Theorem loadConfig_defaults (env : Process.Environ) :
  let cfg := Process.loadConfig env in
  let pick key default :=
    match env key with
    | Some value => if value =? "" then default else value
    | None => default
    end in
  Process.TranscribeRegion cfg = pick "TRANSCRIBE_REGION" "us-east-1"
  /\ Process.S3Region cfg = pick "S3_BUCKET_REGION" "us-east-1"
  /\ Process.S3Prefix cfg = pick "S3_PREFIX" "medical-transcriptions"
  /\ Process.TranscribeLanguage cfg = pick "TRANSCRIBE_LANGUAGE_CODE" "en-US"
  /\ Process.TranscribeSpecialty cfg = pick "TRANSCRIBE_SPECIALTY" "PRIMARYCARE"
  /\ Process.TranscribeType cfg = pick "TRANSCRIBE_TYPE" "DICTATION"
  /\ Process.TranscribeRegion cfg <> "" /\ Process.S3Region cfg <> ""
  /\ Process.S3Prefix cfg <> "" /\ Process.TranscribeLanguage cfg <> ""
  /\ Process.TranscribeSpecialty cfg <> "" /\ Process.TranscribeType cfg <> ""
  /\ Process.S3Bucket cfg = pick "S3_BUCKET" ""
  /\ Process.AWSAccessKeyID cfg = pick "AWS_ACCESS_KEY_ID" ""
  /\ Process.AWSSecretAccessKey cfg = pick "AWS_SECRET_ACCESS_KEY" "".
Proof.
  intros cfg pick.
  assert (Hpick : forall key default,
             Process.getEnvOrDefault env key default = pick key default).
  { intros key default. unfold Process.getEnvOrDefault, Process.Getenv, pick.
    destruct (env key) as [value|]; [|reflexivity].
    now destruct (value =? ""). }
  assert (Hne : forall key default, default <> "" -> pick key default <> "").
  { intros key default Hd. unfold pick.
    destruct (env key) as [value|]; [|exact Hd].
    destruct (String.eqb_spec value ""); assumption. }
  assert (Hraw : forall key, Process.Getenv env key = pick key "").
  { intros key. unfold Process.Getenv, pick.
    destruct (env key) as [value|]; [|reflexivity].
    now destruct (String.eqb_spec value ""). }
  subst cfg. unfold Process.loadConfig.
  destruct (strconv.ParseInt _ 32) as [parsed err]. cbn -[pick].
  rewrite !Hpick, !Hraw.
  repeat split; try reflexivity; apply Hne; discriminate.
Qed.

(** X2.  The sample rate of the loaded configuration: when
    [SAMPLE_RATE_HZ] is the decimal numeral of a 32-bit integer, that
    integer, whatever its sign; when it is the numeral of any other integer,
    or is not set, 16000; in general the integer [ParseInt] reads, unchanged
    by the conversion to 32 bits, or else 16000. *)
Theorem loadConfig_sample_rate (env : Process.Environ) (n : Z) :
  env "SAMPLE_RATE_HZ" = Some (decimal n) ->
  Process.SampleRateHz (Process.loadConfig env)
  = (if ((- 2 ^ 31 <=? n) && (n <? 2 ^ 31))%Z then n else 16000%Z)
  /\ (forall env' : Process.Environ,
        env' "SAMPLE_RATE_HZ" = None ->
        Process.SampleRateHz (Process.loadConfig env') = 16000%Z)
  /\ (forall env' : Process.Environ,
        let parsed := strconv.ParseInt (Process.Getenv env' "SAMPLE_RATE_HZ") 32 in
        Process.SampleRateHz (Process.loadConfig env')
        = match snd parsed with
          | None => fst parsed
          | Some _ => 16000%Z
          end).
Proof.
  intros Henv.
  assert (Hgen : forall env' : Process.Environ,
             let parsed := strconv.ParseInt (Process.Getenv env' "SAMPLE_RATE_HZ") 32 in
             Process.SampleRateHz (Process.loadConfig env')
             = match snd parsed with
               | None => fst parsed
               | Some _ => 16000%Z
               end).
  { intros env'. cbv zeta. unfold Process.loadConfig.
    destruct (strconv.ParseInt _ 32) as [parsed [e|]] eqn:E;
      cbn [Process.SampleRateHz fst snd].
    - reflexivity.
    - now apply ParseInt_range in E. }
  split; [|split; [|exact Hgen]].
  - rewrite (Hgen env). cbv zeta. unfold Process.Getenv. rewrite Henv.
    rewrite ParseInt_decimal.
    destruct ((- 2 ^ 31 <=? n)%Z && (n <? 2 ^ 31)%Z); [reflexivity|].
    now destruct (n <? 0)%Z.
  - intros env' Hnone. rewrite (Hgen env'). cbv zeta.
    unfold Process.Getenv. rewrite Hnone. reflexivity.
Qed.

Lemma loadConfig_sample_rate_witness :
  let env : Process.Environ :=
    fun key => if key =? "SAMPLE_RATE_HZ" then Some "44100" else None in
  Process.SampleRateHz (Process.loadConfig env) = 44100%Z.
Proof.
  intros env.
  exact (proj1 (loadConfig_sample_rate env 44100 eq_refl)).
Defined.

(** X3.  When [wsHandler] gets as far as a session, the specialty and the
    type of the recognition stream are the query parameters of the request
    where these are not empty, and otherwise the values of the loaded
    configuration; they are never empty.  Every other setting is the one
    loaded from the environment, the stream has two channels, and the
    session starts with no segment and no message sent. *)
Theorem wsHandler_stream_input (env : Process.Environ) (r : Process.Request)
  (config : Process.Config) :
  Process.wsHandler r (Process.loadConfig env) = Some config ->
  let cfg := Process.loadConfig env in
  let input := Process.streamInput config in
  Process.Specialty input
  = (if Process.specialtyParam r =? "" then Process.TranscribeSpecialty cfg
     else Process.specialtyParam r)
  /\ Process.StreamType input
     = (if Process.typeParam r =? "" then Process.TranscribeType cfg
        else Process.typeParam r)
  /\ Process.Specialty input <> "" /\ Process.StreamType input <> ""
  /\ Process.LanguageCode input = Process.TranscribeLanguage cfg
  /\ Process.LanguageCode input <> ""
  /\ Process.MediaSampleRateHertz input = Process.SampleRateHz cfg
  /\ Process.NumberOfChannels input = 2%Z
  /\ Process.EnableChannelIdentification input = true
  /\ sessionConfig config = sessionConfig cfg
  /\ serve env r = Some (init (sessionConfig cfg))
  /\ Process.upgradeErr r = false
  /\ Process.transcribeConfigErr r = false
  /\ Process.s3ConfigErr r = false.
Proof.
  intros H cfg input.
  destruct (loadConfig_defaults env)
    as (_ & _ & _ & _ & _ & _ & _ & _ & _ & Hlang & Hspec & Htype & _).
  fold cfg in Hlang, Hspec, Htype.
  assert (Hserve : serve env r = Some (init (sessionConfig config))).
  { unfold serve. now rewrite H. }
  unfold Process.wsHandler in H. fold cfg in H.
  destruct (Process.upgradeErr r); [discriminate|].
  destruct (Process.transcribeConfigErr r); [discriminate|].
  destruct (Process.s3ConfigErr r); [discriminate|].
  injection H as <-. rewrite Hserve. subst input. cbn.
  repeat split; try reflexivity.
  - destruct (String.eqb_spec (Process.specialtyParam r) ""); assumption.
  - destruct (String.eqb_spec (Process.typeParam r) ""); assumption.
  - exact Hlang.
Qed.

(** A request that asks for the specialty CARDIOLOGY in an environment that
    sets no variable. *)
Lemma wsHandler_stream_input_witness :
  let env : Process.Environ := fun _ => None in
  let r := {| Process.upgradeErr := false;
              Process.specialtyParam := "CARDIOLOGY";
              Process.typeParam := "";
              Process.transcribeConfigErr := false;
              Process.s3ConfigErr := false |} in
  exists config,
    Process.wsHandler r (Process.loadConfig env) = Some config
    /\ Process.Specialty (Process.streamInput config) = "CARDIOLOGY"
    /\ Process.StreamType (Process.streamInput config) = "DICTATION"
    /\ Process.MediaSampleRateHertz (Process.streamInput config) = 16000%Z.
Proof.
  intros env r.
  destruct (Process.wsHandler r (Process.loadConfig env)) as [config|] eqn:E;
    [|discriminate].
  exists config. split; [reflexivity|].
  destruct (wsHandler_stream_input env r config E) as (Hs & Ht & _ & _ & _ & _ & Hr & _).
  split; [exact Hs|]. split; [exact Ht|]. exact Hr.
Defined.

(* ================================================================== *)
(** ** The messages a session sends                                    *)
(* ================================================================== *)

(** What one result adds: at most one relayed message, and the segment of
    every final message. *)
Lemma processResult_log (result : MedicalResult) (s : TranscriptionSession) :
  exists more,
    conn (processResult result s) = (conn s ++ more)%list
    /\ transcripts (processResult result s)
       = (transcripts s ++ map Text (filter is_final more))%list
    /\ Forall relayed more
    /\ List.length more <= 1.
Proof.
  unfold processResult.
  destruct (Alternatives result) as [|alternative rest].
  { exists []. simpl. rewrite !app_nil_r. auto. }
  destruct (String.eqb_spec (ToString (Transcript alternative)) "") as [|HT].
  { exists []. simpl. rewrite !app_nil_r. auto. }
  destruct (IsPartial result); simpl negb; cbv iota.
  - exists [partialMessage (ToString (Transcript alternative))]. simpl.
    rewrite app_nil_r. repeat split; auto.
    constructor; [|constructor]. eexists; eauto.
  - rewrite processFinal_accept.
    destruct (fst (checkDuplicate _ s)) eqn:E.
    + exists []. simpl. rewrite !app_nil_r. auto.
    + exists [finalMessage (snd (checkDuplicate (ToString (Transcript alternative)) s))].
      simpl. repeat split; auto.
      constructor; [|constructor]. eexists. split; [|right; reflexivity].
      now apply checkDuplicate_nonempty.
Qed.

Lemma processTranscriptEvent_log (event : MedicalTranscript) (s : TranscriptionSession) :
  exists more,
    conn (processTranscriptEvent event s) = (conn s ++ more)%list
    /\ transcripts (processTranscriptEvent event s)
       = (transcripts s ++ map Text (filter is_final more))%list
    /\ Forall relayed more
    /\ List.length more <= List.length (Results event).
Proof.
  unfold processTranscriptEvent.
  revert s. induction (Results event) as [|r rs IH]; intros s; simpl.
  - exists []. simpl. rewrite !app_nil_r. auto.
  - destruct (processResult_log r s) as (m1 & C1 & T1 & F1 & L1).
    destruct (IH (processResult r s)) as (m2 & C2 & T2 & F2 & L2).
    exists (m1 ++ m2)%list. rewrite C2, T2, C1, T1.
    rewrite filter_app, map_app, !app_assoc, length_app.
    repeat split; [now apply Forall_app|lia].
Qed.

Lemma relayed_not_closing (m : WSMessage) :
  relayed m -> is_saved m = false /\ is_error m = false.
Proof.
  intros (text & _ & [-> | ->]); split; reflexivity.
Qed.

Lemma saveToS3_config (timestamp : string) (putErr : bool) (s : TranscriptionSession) :
  config (saveToS3 timestamp putErr s) = config s.
Proof.
  unfold saveToS3. destruct (_ =? ""); [reflexivity|]. now destruct putErr.
Qed.

Lemma step_protocol_inv (cfg : Config) (l : Label) (g g' : System) :
  control_inv g -> protocol_inv cfg g -> step l g = Some g' -> protocol_inv cfg g'.
Proof.
  intros Hc (Hcfg & Hfin & relay & terminal & Hconn & Hrel & Hterm) H.
  pose proof (step_returned l g g' H) as Hret.
  destruct (step_session l g g' H)
    as [E|[(_ & Hpc & Hpc' & E)|[(_ & E)|[(ts & e & _ & Hpc & Hpc' & Hn & E)|(t & _ & Hev & E)]]]].
  - unfold protocol_inv. rewrite E. repeat split; auto.
    exists relay, terminal. repeat split; auto.
    destruct Hterm as [|[Hr Hm]]; auto.
  - assert (terminal = []) as -> by (destruct Hterm as [|[Hr _]]; congruence).
    rewrite app_nil_r in Hconn.
    unfold protocol_inv. rewrite E. simpl.
    rewrite filter_app, map_app. simpl. rewrite app_nil_r.
    repeat split; auto.
    exists relay, [errorMessage "Failed to start transcription"].
    rewrite Hconn. repeat split; auto.
    right. split; [exact Hpc'|]. eexists. split; [reflexivity|]. now left.
  - unfold protocol_inv. rewrite E. simpl. repeat split; auto.
    exists relay, terminal. repeat split; auto.
    destruct Hterm as [|[Hr Hm]]; auto.
  - assert (terminal = []) as -> by (destruct Hterm as [|[Hr _]]; congruence).
    rewrite app_nil_r in Hconn.
    unfold protocol_inv. rewrite E, saveToS3_config.
    rewrite (proj1 (saveToS3_transcripts ts e _)).
    split; [exact Hcfg|].
    destruct (String.eqb_spec (strings.Join (transcripts (session g)) " ") "") as [J|J].
    + rewrite saveToS3_empty by assumption. split; [exact Hfin|].
      exists relay, []. rewrite app_nil_r. auto.
    + rewrite saveToS3_put by assumption. cbn [conn].
      rewrite filter_app, map_app.
      split.
      * rewrite Hfin. destruct e; simpl; now rewrite app_nil_r.
      * eexists relay, [_]. rewrite Hconn. split; [reflexivity|]. split; [exact Hrel|].
        right. split; [exact Hpc'|]. eexists. split; [reflexivity|].
        destruct e; [right; now left|].
        right; right. exists ts. unfold archiveKey. now rewrite Hcfg.
  - assert (terminal = []) as ->.
    { destruct Hterm as [|[Hr _]]; [assumption|].
      apply (inv_returned g Hc) in Hr. congruence. }
    rewrite app_nil_r in Hconn.
    destruct (processTranscriptEvent_log t (session g)) as (more & C & T & F & _).
    destruct (processTranscriptEvent_frame t (session g)) as (_ & _ & Fc & _).
    unfold protocol_inv. rewrite E, Fc, C, T, filter_app, map_app, Hfin.
    repeat split; auto.
    exists (relay ++ more)%list, []. rewrite app_nil_r, Hconn.
    repeat split; auto. now apply Forall_app.
Qed.

Lemma reachable_protocol_inv (cfg : Config) (g : System) :
  reachable cfg g -> protocol_inv cfg g.
Proof.
  intros [ls H].
  cut (control_inv g /\ protocol_inv cfg g); [tauto|].
  apply (run_invariant (fun g => control_inv g /\ protocol_inv cfg g))
    with (ls := ls) (g := init cfg); [| |exact H].
  - intros l g0 g1 [Hc Hp] Hstep.
    split; [eapply step_control_inv|eapply step_protocol_inv]; eassumption.
  - split; [apply init_control_inv|].
    unfold protocol_inv; simpl. repeat split.
    exists [], []. auto.
Qed.

(** X4.  What a session has sent to its client, in every state it reaches:
    first the messages relayed from the recognition service, each a partial
    or a final message with a non-empty text, then at most one closing
    message, which is sent only when [handleConnection] returns and is
    either one of the two error messages or the saved message whose key is
    the prefix of the configuration, ["/transcription_"], a timestamp and
    [".txt"].  Nothing follows the closing message. *)
Theorem client_messages_shape (cfg : Config) (g : System) :
  reachable cfg g ->
  exists relay terminal,
    conn (session g) = (relay ++ terminal)%list
    /\ Forall relayed relay
    /\ (terminal = []
        \/ (mainPC g = Returned /\ exists m, terminal = [m] /\ closing cfg m)).
Proof.
  intros Hr. now destruct (reachable_protocol_inv cfg g Hr) as (_ & _ & H).
Qed.

Lemma client_messages_shape_witness :
  let trace : list Label :=
    [Main (StartStream false);
     Events (EventsRecv (TranscriptEvent (Some {| Results := [partialResult "hel"] |})));
     Events (EventsRecv (TranscriptEvent (Some (finalEvent "hello there"))));
     Main (ReadText (Some stopMessage)); Main CloseAudio; Main Cancel;
     Events EventsCtxDone; Main WaitDone;
     Main (Save "2024-01-15_10-30-45" false)] in
  exists g relay terminal,
    run trace (init exampleConfig) = Some g
    /\ conn (session g) = (relay ++ terminal)%list
    /\ Forall relayed relay
    /\ List.length (conn (session g)) = 3.
Proof.
  intros trace.
  destruct (run trace (init exampleConfig)) as [g|] eqn:E; [|discriminate].
  destruct (client_messages_shape exampleConfig g) as (relay & terminal & Hc & Hf & _).
  { now exists trace. }
  exists g, relay, terminal. repeat split; auto.
  vm_compute in E. injection E as <-. reflexivity.
Defined.

(** X5.  In every state a session reaches, the texts of the final messages
    it has sent are, in the same order, exactly its segments: every accepted
    segment is sent once, and no final message is sent for a text that is
    not stored. *)
Theorem final_messages_are_segments (cfg : Config) (g : System) :
  reachable cfg g ->
  map Text (filter is_final (conn (session g))) = transcripts (session g)
  /\ List.length (filter is_final (conn (session g)))
     = List.length (transcripts (session g))
  /\ segments_nonempty (session g).
Proof.
  intros Hr. destruct (reachable_protocol_inv cfg g Hr) as (_ & H & _).
  split; [exact H|]. split; [now rewrite <- H, length_map|].
  apply (reachable_inv cfg g Hr).
Qed.

Lemma final_messages_are_segments_witness :
  let trace : list Label :=
    [Main (StartStream false);
     Events (EventsRecv (TranscriptEvent (Some (finalEvent "patient reports pain"))));
     Events (EventsRecv (TranscriptEvent (Some (finalEvent "patient reports pain"))));
     Events (EventsRecv (TranscriptEvent
                           (Some (finalEvent "patient reports pain in left arm"))))] in
  exists g,
    run trace (init exampleConfig) = Some g
    /\ map Text (filter is_final (conn (session g))) = transcripts (session g)
    /\ transcripts (session g) = ["patient reports pain"; "in left arm"].
Proof.
  intros trace.
  destruct (run trace (init exampleConfig)) as [g|] eqn:E; [|discriminate].
  exists g. split; [reflexivity|]. split.
  - apply (final_messages_are_segments exampleConfig g). now exists trace.
  - vm_compute in E. injection E as <-. reflexivity.
Defined.

(* ================================================================== *)
(** ** After [handleConnection] has returned                           *)
(* ================================================================== *)

Lemma run_returned (ls : list Label) (g g' : System) :
  control_inv g -> mainPC g = Returned -> run ls g = Some g' ->
  session g' = session g /\ mainPC g' = Returned.
Proof.
  intros Hc Hpc H.
  cut (control_inv g' /\ session g' = session g /\ mainPC g' = Returned); [tauto|].
  apply (run_invariant
           (fun x => control_inv x /\ session x = session g /\ mainPC x = Returned))
    with (ls := ls) (g := g); [|auto|exact H].
  intros l g0 g1 (Hc0 & Hs & Hp) Hstep.
  split; [eapply step_control_inv; eassumption|].
  split; [|eapply step_returned; eassumption].
  rewrite <- Hs.
  pose proof (inv_returned g0 Hc0 Hp) as Hev.
  destruct l as [[]|[]|[]]; step_inv Hstep; simpl; congruence.
Qed.

(** X6.  Once [handleConnection] has returned, whatever the goroutines that
    are left still do, the session object never changes again: no message
    is written to the connection (which [wsHandler] closes at that point),
    no segment is added and storage is not written. *)
Theorem nothing_written_after_return (cfg : Config) (g : System)
  (ls : list Label) (g' : System) :
  reachable cfg g ->
  mainPC g = Returned ->
  run ls g = Some g' ->
  session g' = session g
  /\ conn (session g') = conn (session g)
  /\ s3Client (session g') = s3Client (session g)
  /\ mainPC g' = Returned.
Proof.
  intros Hr Hpc H.
  destruct (run_returned ls g g') as [Hs Hp]; auto.
  { apply (reachable_inv cfg g Hr). }
  rewrite Hs. auto.
Qed.

Lemma nothing_written_after_return_witness :
  let trace : list Label :=
    [Main (StartStream false); Main (ReadBinary [Byte.x01] CaseSend);
     Main ReadError; Main CloseAudio; Main Cancel;
     Events EventsCtxDone; Main WaitDone;
     Main (Save "2024-01-15_10-30-45" false)] in
  let rest : list Label := [Sender (SenderRecv true)] in
  exists g g',
    run trace (init exampleConfig) = Some g
    /\ run rest g = Some g'
    /\ upstream g' = [[Byte.x01]]
    /\ session g' = session g.
Proof.
  intros trace rest.
  destruct (run trace (init exampleConfig)) as [g|] eqn:E; [|discriminate].
  destruct (run rest g) as [g'|] eqn:E';
    [|vm_compute in E; injection E as <-; discriminate].
  exists g, g'. split; [reflexivity|]. split; [exact E'|].
  split; [vm_compute in E; injection E as <-; vm_compute in E';
          injection E' as <-; reflexivity|].
  apply (nothing_written_after_return exampleConfig g rest g').
  - now exists trace.
  - vm_compute in E. injection E as <-. reflexivity.
  - exact E'.
Defined.

(* ================================================================== *)
(** ** The channels are closed once                                    *)
(* ================================================================== *)

Lemma audioCloses_app (ls1 ls2 : list Label) :
  audioCloses (ls1 ++ ls2) = audioCloses ls1 + audioCloses ls2.
Proof.
  induction ls1 as [|l ls1 IH]; [reflexivity|].
  destruct l as [[]|[]|[]]; simpl; now rewrite IH.
Qed.

Lemma doneCloses_app (ls1 ls2 : list Label) :
  doneCloses (ls1 ++ ls2) = doneCloses ls1 + doneCloses ls2.
Proof.
  induction ls1 as [|l ls1 IH]; [reflexivity|].
  destruct l as [[]|[]|[]]; simpl; now rewrite IH.
Qed.

Lemma step_closes (ls : list Label) (l : Label) (g g' : System) :
  control_inv g ->
  audioCloses ls = (if closed (audioChan g) then 1 else 0) ->
  doneCloses ls = (if doneChan g then 1 else 0) ->
  step l g = Some g' ->
  audioCloses (ls ++ [l]) = (if closed (audioChan g') then 1 else 0)
  /\ doneCloses (ls ++ [l]) = (if doneChan g' then 1 else 0).
Proof.
  intros Hc Ha Hd H. rewrite audioCloses_app, doneCloses_app, Ha, Hd.
  pose proof (inv_closed g Hc) as Hcl. pose proof (inv_done g Hc) as Hdn.
  destruct l as [[]|[]|[]]; step_inv H; simpl; rewrite ?Nat.add_0_r; auto;
    try (repeat match goal with
                | E : closed _ = true |- _ => rewrite E
                | E : doneChan _ = true |- _ => rewrite E
                end; split; reflexivity).
  - destruct (closed (audioChan g)); [|auto].
    destruct Hcl as (_ & _ & X); [reflexivity|congruence].
  - destruct (doneChan g); [|auto]. specialize (Hdn eq_refl). congruence.
  - destruct (doneChan g); [|auto]. specialize (Hdn eq_refl). congruence.
Qed.

(** X7.  Along every execution of a session [close(audioChan)] has run
    exactly once if the channel is closed and never otherwise, and likewise
    the deferred [close(done)]: no channel is closed twice.  A frame is put
    on [audioChan] only while it is open. *)
Theorem channels_closed_once (cfg : Config) (ls : list Label) (g : System) :
  run ls (init cfg) = Some g ->
  audioCloses ls = (if closed (audioChan g) then 1 else 0)
  /\ doneCloses ls = (if doneChan g then 1 else 0)
  /\ (forall message g',
        step (ReadBinary message CaseSend) g = Some g' ->
        closed (audioChan g) = false)
  /\ (forall g', step CloseAudio g = Some g' -> closed (audioChan g) = false)
  /\ (forall g', step EventsCtxDone g = Some g' -> doneChan g = false)
  /\ (forall g', step EventsClosed g = Some g' -> doneChan g = false).
Proof.
  intros H.
  assert (Hc : control_inv g) by (apply (reachable_inv cfg); now exists ls).
  assert (Hcount : audioCloses ls = (if closed (audioChan g) then 1 else 0)
                   /\ doneCloses ls = (if doneChan g then 1 else 0)).
  { revert ls g H Hc.
    apply (run_ind_last cfg
             (fun ls g => control_inv g ->
                          audioCloses ls = (if closed (audioChan g) then 1 else 0)
                          /\ doneCloses ls = (if doneChan g then 1 else 0))).
    - intros _. split; reflexivity.
    - intros ls g l g' Hrun IH Hstep _.
      assert (Hc0 : control_inv g) by (apply (reachable_inv cfg); now exists ls).
      destruct (IH Hc0) as [Ha Hd]. now apply step_closes with (g := g). }
  destruct Hcount as [Ha Hd]. split; [exact Ha|]. split; [exact Hd|].
  pose proof (inv_closed g Hc) as Hcl. pose proof (inv_done g Hc) as Hdn.
  repeat split; intros; match goal with
    | Hs : step _ _ = Some _ |- _ => step_inv Hs
    end.
  - destruct (closed (audioChan g)); [|reflexivity].
    destruct Hcl as (_ & X & _); [reflexivity|congruence].
  - destruct (closed (audioChan g)); [|reflexivity].
    destruct Hcl as (_ & _ & X); [reflexivity|congruence].
  - destruct (doneChan g); [|reflexivity]. specialize (Hdn eq_refl). congruence.
  - destruct (doneChan g); [|reflexivity]. specialize (Hdn eq_refl). congruence.
Qed.

Lemma channels_closed_once_witness :
  let trace : list Label :=
    [Main (StartStream false); Main (ReadBinary [Byte.x01] CaseSend);
     Events EventsClosed; Sender SenderDone;
     Main (ReadText (Some stopMessage)); Main CloseAudio; Main Cancel;
     Main WaitDone; Main (Save "2024-01-15_10-30-45" false)] in
  exists g,
    run trace (init exampleConfig) = Some g
    /\ audioCloses trace = 1 /\ doneCloses trace = 1
    /\ closed (audioChan g) = true /\ doneChan g = true.
Proof.
  intros trace.
  destruct (run trace (init exampleConfig)) as [g|] eqn:E; [|discriminate].
  exists g. split; [reflexivity|].
  destruct (channels_closed_once exampleConfig trace g E) as (Ha & Hd & _).
  assert (Hg : closed (audioChan g) = true /\ doneChan g = true).
  { vm_compute in E. injection E as <-. split; reflexivity. }
  destruct Hg as [Hg1 Hg2]. rewrite Hg1 in Ha. rewrite Hg2 in Hd. auto.
Defined.

(* ================================================================== *)
(** ** The archive                                                     *)
(* ================================================================== *)

Lemma append_assoc (a b c : string) : (a ++ b) ++ c = a ++ b ++ c.
Proof.
  induction a as [|x a IH]; simpl; [reflexivity|now rewrite IH].
Qed.

Lemma length_append (a b : string) : length (a ++ b) = length a + length b.
Proof.
  induction a as [|x a IH]; simpl; [reflexivity|now rewrite IH].
Qed.

Lemma prefix_append (sub q : string) : prefix sub (sub ++ q) = true.
Proof.
  induction sub as [|x sub IH]; simpl; [now destruct q|].
  destruct (ascii_dec x x); [exact IH|congruence].
Qed.

(** [Contains] finds every occurrence. *)
Lemma Contains_intro (p sub q : string) :
  strings.Contains (p ++ sub ++ q) sub = true.
Proof.
  unfold strings.Contains.
  induction p as [|x p IH]; simpl append; rewrite Index_eq.
  - now rewrite prefix_append.
  - destruct (prefix sub (String x (p ++ sub ++ q))); [reflexivity|].
    destruct (strings.Index (p ++ sub ++ q) sub); [reflexivity|discriminate].
Qed.

Lemma Contains_iff (s sub : string) :
  strings.Contains s sub = true <-> exists p q, s = p ++ sub ++ q.
Proof.
  split.
  - unfold strings.Contains.
    destruct (strings.Index s sub) as [j|] eqn:E; [|discriminate].
    intros _. apply Index_split in E. eauto.
  - intros (p & q & ->). apply Contains_intro.
Qed.

(** Every element of a joined list is a substring of the joined text. *)
Lemma Contains_Join (elems : list string) (sep seg : string) :
  In seg elems -> strings.Contains (strings.Join elems sep) seg = true.
Proof.
  induction elems as [|e rest IH]; [contradiction|].
  intros [->|Hin].
  - destruct rest; simpl.
    + apply Contains_refl.
    + apply (Contains_intro "").
  - specialize (IH Hin). apply Contains_iff in IH as (p & q & E).
    destruct rest as [|e' rest']; [contradiction|].
    change (strings.Join (e :: e' :: rest') sep)
      with (e ++ sep ++ strings.Join (e' :: rest') sep).
    rewrite E. apply Contains_iff. exists (e ++ sep ++ p), q.
    now rewrite !append_assoc.
Qed.

(** X8.  In every state a session reaches, the body of a storage write is
    the text of the final messages sent to the client, joined by single
    spaces in the order they were sent; the text of every final message is
    a substring of it; and it is the only write of the session, made by the
    step that ends [handleConnection]. *)
Theorem archive_is_what_the_client_saw (cfg : Config) (g : System)
  (input : PutObjectInput) (failed : bool) :
  reachable cfg g ->
  In (input, failed) (s3Client (session g)) ->
  Body input = strings.Join (map Text (filter is_final (conn (session g)))) " "
  /\ (forall m, In m (conn (session g)) -> is_final m = true ->
       strings.Contains (Body input) (Text m) = true)
  /\ Body input <> ""
  /\ s3Client (session g) = [(input, failed)]
  /\ mainPC g = Returned.
Proof.
  intros Hr Hin.
  destruct (reachable_protocol_inv cfg g Hr) as (_ & Hfin & _).
  destruct (reachable_inv cfg g Hr) as (_ & Hc & _ & [Hst _ Hput]).
  destruct (Hput input failed Hin) as [Hbody Hne].
  rewrite Hfin. split; [exact Hbody|]. split; [|split; [exact Hne|]].
  - intros m Hm Hf. rewrite Hbody. apply Contains_Join.
    rewrite <- Hfin. apply in_map. now apply filter_In.
  - assert (Hret : mainPC g = Returned).
    { destruct (mainPC g) eqn:E; try reflexivity;
        destruct Hst as [X _]; try congruence; rewrite X in Hin; contradiction. }
    split; [|exact Hret].
    (* one write only: storage is written by the one step that ends the session *)
    clear Hput Hbody Hne Hfin.
    destruct Hr as [ls Hrun]. revert ls g Hrun Hc Hst Hin Hret.
    apply (run_ind_last cfg
             (fun ls g => control_inv g ->
                (mainPC g <> Returned ->
                 s3Client (session g) = []
                 /\ filter is_saved (conn (session g)) = []) ->
                In (input, failed) (s3Client (session g)) ->
                mainPC g = Returned ->
                s3Client (session g) = [(input, failed)])).
    + simpl. contradiction.
    + intros ls g l g' Hrun IH Hstep Hc' _ Hin' Hret'.
      assert (Hr0 : reachable cfg g) by now exists ls.
      destruct (reachable_inv cfg g Hr0) as (Hn0 & Hc0 & _ & [Hst0 _ _]).
      destruct (step_session l g g' Hstep)
        as [E|[(_ & Hpc & Hpc' & E)|[(_ & E)|[(ts & e & _ & Hpc & Hpc' & Hn & E)
                                               |(t & _ & Hev & E)]]]].
      * rewrite E in *.
        destruct (mainPC g) eqn:Epc;
          try (destruct Hst0 as [X _]; [congruence|]; rewrite X in Hin'; contradiction).
        now apply IH.
      * rewrite E in *. simpl in *.
        destruct Hst0 as [X _]; [congruence|]. rewrite X in Hin'. contradiction.
      * rewrite E in *. simpl in *.
        destruct (mainPC g) eqn:Epc;
          try (destruct Hst0 as [X _]; [congruence|]; rewrite X in Hin'; contradiction).
        now apply IH.
      * destruct Hst0 as [X _]; [congruence|].
        assert (J : strings.Join (transcripts (session g)) " " <> "").
        { intros J. now apply (Join_nonempty _ Hn0) in J. }
        rewrite E, saveToS3_put in * by assumption. cbn [s3Client] in *.
        rewrite X in *. simpl in *. destruct Hin' as [Hin'|[]]. now rewrite Hin'.
      * assert (Hpc : mainPC g <> Returned).
        { intros R. apply (inv_returned g Hc0) in R. congruence. }
        destruct (Hst0 Hpc) as [X _].
        destruct (processTranscriptEvent_frame t (session g)) as (_ & F3 & _).
        rewrite E, F3, X in Hin'. contradiction.
Qed.

Lemma archive_is_what_the_client_saw_witness :
  let trace : list Label :=
    [Main (StartStream false);
     Events (EventsRecv (TranscriptEvent (Some (finalEvent "patient reports pain"))));
     Events (EventsRecv (TranscriptEvent (Some {| Results := [partialResult "in le"] |})));
     Events (EventsRecv (TranscriptEvent
                           (Some (finalEvent "patient reports pain in left arm"))));
     Main (ReadText (Some stopMessage)); Main CloseAudio; Main Cancel;
     Events EventsCtxDone; Main WaitDone;
     Main (Save "2024-01-15_10-30-45" false)] in
  exists g input,
    run trace (init exampleConfig) = Some g
    /\ s3Client (session g) = [(input, false)]
    /\ Body input = "patient reports pain in left arm".
Proof.
  intros trace.
  destruct (run trace (init exampleConfig)) as [g|] eqn:E; [|discriminate].
  destruct (s3Client (session g)) as [|[input failed] rest] eqn:Es;
    [vm_compute in E; injection E as <-; discriminate|].
  assert (Hf : failed = false).
  { vm_compute in E. injection E as <-. now injection Es as _ <- _. }
  subst failed.
  destruct (archive_is_what_the_client_saw exampleConfig g input false)
    as (Hbody & _ & _ & Hone & _).
  { now exists trace. }
  { rewrite Es. now left. }
  exists g, input. split; [reflexivity|]. split; [exact Hone|].
  rewrite Hbody. vm_compute in E. injection E as <-. reflexivity.
Defined.

Lemma append_inj_l (p a b : string) : p ++ a = p ++ b -> a = b.
Proof.
  induction p as [|x p IH]; simpl; [auto|]. intros [= H]. auto.
Qed.

Lemma append_inj_r (a b c : string) : a ++ c = b ++ c -> a = b.
Proof.
  revert b. induction a as [|x a IH]; intros [|y b] H; simpl in H.
  - reflexivity.
  - apply (f_equal length) in H. simpl in H. rewrite length_append in H. lia.
  - apply (f_equal length) in H. simpl in H. rewrite length_append in H. lia.
  - injection H as -> H. f_equal. now apply IH.
Qed.

Lemma archiveKey_inj (cfg cfg' : Config) (t1 t2 : string) :
  S3Prefix cfg = S3Prefix cfg' ->
  (archiveKey cfg t1 = archiveKey cfg' t2 <-> t1 = t2).
Proof.
  intros Hp. unfold archiveKey. rewrite Hp. split; [|now intros ->].
  intros H. apply append_inj_l in H. apply append_inj_l in H.
  now apply append_inj_r in H.
Qed.

(** X9.  The archiver writes a non-empty transcript under the key made of
    the prefix and the timestamp alone, and reports that key: the sessions
    of one prefix write the same key exactly when they are archived at the
    same timestamp, whatever their transcripts. *)
Theorem archive_key_is_prefix_and_time (s1 s2 : TranscriptionSession)
  (t1 t2 : string) :
  strings.Join (transcripts s1) " " <> "" ->
  strings.Join (transcripts s2) " " <> "" ->
  S3Prefix (config s1) = S3Prefix (config s2) ->
  let write s t :=
    ({| Bucket := S3Bucket (config s); ObjectKey := archiveKey (config s) t;
        Body := strings.Join (transcripts s) " "; ContentType := "text/plain" |},
     false) in
  s3Client (saveToS3 t1 false s1) = (s3Client s1 ++ [write s1 t1])%list
  /\ conn (saveToS3 t1 false s1)
     = (conn s1 ++ [savedMessage (archiveKey (config s1) t1)])%list
  /\ s3Client (saveToS3 t2 false s2) = (s3Client s2 ++ [write s2 t2])%list
  /\ conn (saveToS3 t2 false s2)
     = (conn s2 ++ [savedMessage (archiveKey (config s2) t2)])%list
  /\ (archiveKey (config s1) t1 = archiveKey (config s2) t2 <-> t1 = t2).
Proof.
  intros J1 J2 Hp write.
  rewrite !saveToS3_put by assumption. cbn [s3Client conn].
  repeat split; try reflexivity; now apply archiveKey_inj.
Qed.

Lemma archive_key_is_prefix_and_time_witness :
  let s1 := accept "hello there" (newSession exampleConfig) in
  let s2 := accept "patient reports pain" (newSession exampleConfig) in
  archiveKey (config s1) "2024-01-15_10-30-45"
  = archiveKey (config s2) "2024-01-15_10-30-45"
  /\ conn (saveToS3 "2024-01-15_10-30-45" false s2)
     = [finalMessage "patient reports pain";
        savedMessage "medical-transcriptions/transcription_2024-01-15_10-30-45.txt"].
Proof.
  intros s1 s2.
  destruct (archive_key_is_prefix_and_time s1 s2
              "2024-01-15_10-30-45" "2024-01-15_10-30-45")
    as (_ & _ & _ & Hc & Hk); try discriminate; try reflexivity.
  split; [now apply Hk|exact Hc].
Defined.

(* ================================================================== *)
(** ** More on the reconciler                                          *)
(* ================================================================== *)

Lemma length_trim_left (f : Z -> bool) (fuel : nat) (s : string) :
  length (strings.trim_left fuel f s) <= length s.
Proof.
  revert s. induction fuel as [|fuel IH]; intros s; [destruct s; simpl; lia|].
  destruct s as [|c s]; [simpl; lia|]. cbn [strings.trim_left].
  destruct (utf8.DecodeRuneInString (String c s)) as [r wid].
  destruct (f r); [|lia].
  etransitivity; [apply IH|]. rewrite length_drop. lia.
Qed.

Lemma length_trim_right (f : Z -> bool) (fuel : nat) (s : string) :
  length (strings.trim_right fuel f s) <= length s.
Proof.
  revert s. induction fuel as [|fuel IH]; intros s; [destruct s; simpl; lia|].
  destruct s as [|c s]; [simpl; lia|]. cbn [strings.trim_right].
  destruct (utf8.DecodeLastRuneInString (String c s)) as [r wid].
  destruct (f r); [|lia].
  etransitivity; [apply IH|]. rewrite length_take. lia.
Qed.

Lemma length_TrimSpace (s : string) : length (strings.TrimSpace s) <= length s.
Proof.
  unfold strings.TrimSpace, strings.TrimRightFunc, strings.TrimLeftFunc.
  etransitivity; [apply length_trim_right|apply length_trim_left].
Qed.

Lemma length_take_drop (j n : nat) (s : string) :
  j + n <= length s -> length (take j s ++ drop (j + n) s) = length s - n.
Proof.
  intros H. rewrite length_append, length_take, length_drop. lia.
Qed.

(** X10.  The segment the reconciler accepts from an extension is shorter
    than the final text it received by at least the length of
    [lastTranscript]: it is never the received text itself. *)
Theorem extension_remainder_is_shorter (s : TranscriptionSession) (T : string) :
  lastTranscript s <> "" ->
  T <> lastTranscript s ->
  strings.Contains T (lastTranscript s) = true ->
  let R := strings.TrimSpace (strings.Replace T (lastTranscript s) "" 1) in
  let s' := processTranscriptEvent (finalEvent T) s in
  length R + length (lastTranscript s) <= length T
  /\ R <> T
  /\ (transcripts s' = transcripts s
      \/ (transcripts s' = (transcripts s ++ [R])%list /\ length R < length T)).
Proof.
  intros Hlast Hneq Hcont R s'.
  assert (Hlen : length R + length (lastTranscript s) <= length T).
  { subst R. unfold strings.Contains in Hcont.
    destruct (strings.Index T (lastTranscript s)) as [j|] eqn:E; [|discriminate].
    rewrite (Replace_first _ _ j) by assumption.
    pose proof (Index_split _ _ _ E) as Hsplit.
    apply (f_equal length) in Hsplit.
    rewrite !length_append, length_take, length_drop in Hsplit.
    pose proof (length_TrimSpace
                  (take j T ++ drop (j + length (lastTranscript s)) T)) as Ht.
    rewrite length_append, length_take, length_drop in Ht. lia. }
  assert (Hpos : 0 < length (lastTranscript s)).
  { destruct (lastTranscript s); [congruence|simpl; lia]. }
  split; [exact Hlen|]. split.
  - intros E. rewrite E in Hlen. lia.
  - assert (HT : T <> "").
    { intros ->. rewrite Contains_empty_l in Hcont by assumption. discriminate. }
    subst s'. rewrite finalEvent_processFinal, processFinal_accept by assumption.
    rewrite checkDuplicate_extension by assumption. cbv zeta. fold R.
    destruct (R =? ""); simpl; [now left|right]. split; [reflexivity|lia].
Qed.

Lemma extension_remainder_is_shorter_witness :
  let s := accept "patient reports pain" (newSession exampleConfig) in
  let T := "patient reports pain in left arm" in
  length (strings.TrimSpace (strings.Replace T (lastTranscript s) "" 1))
  + length (lastTranscript s) <= length T.
Proof.
  intros s T.
  refine (proj1 (extension_remainder_is_shorter s T _ _ _)).
  - discriminate.
  - discriminate.
  - reflexivity.
Defined.

(** X11.  The verdict of the duplicate check on a final text depends on the
    session only through [lastTranscript] and the last three segments: two
    sessions that agree on these treat every text alike, whatever their
    older segments. *)
Theorem reconciler_bounded_memory (s1 s2 : TranscriptionSession) (text : string) :
  lastTranscript s1 = lastTranscript s2 ->
  recent3 (transcripts s1) = recent3 (transcripts s2) ->
  checkDuplicate text s1 = checkDuplicate text s2.
Proof.
  intros Hl Hr.
  assert (Hscan : forall s,
             (if (0 <? List.length (transcripts s))%nat
              then match scanRecent text (transcripts s) (List.length (transcripts s)) with
                   | Some _ => (true, text)
                   | None => (false, text)
                   end
              else (false, text))
             = match find (strings.Contains text) (recent3 (transcripts s)) with
               | Some _ => (true, text)
               | None => (false, text)
               end).
  { intros s. rewrite scanRecent_recent3.
    destruct (transcripts s); reflexivity. }
  unfold checkDuplicate. rewrite !Hscan, Hl, Hr. reflexivity.
Qed.

Lemma reconciler_bounded_memory_witness :
  let s1 := st_of ["A"; "B"; "C"; "D"] in
  let s2 := st_of ["the first segment"; "something else"; "B"; "C"; "D"] in
  checkDuplicate "contains B inside it" s1 = checkDuplicate "contains B inside it" s2.
Proof.
  intros s1 s2.
  apply (reconciler_bounded_memory s1 s2); reflexivity.
Defined.

(* ================================================================== *)
(** ** A session can always end                                        *)
(* ================================================================== *)

Lemma step_ctx (l : Label) (g g' : System) :
  step l g = Some g' -> ctx (session g) = true -> ctx (session g') = true.
Proof.
  intros H Hctx.
  destruct (step_session l g g' H)
    as [E|[(_ & _ & _ & E)|[(_ & E)|[(ts & e & _ & _ & _ & _ & E)|(t & _ & _ & E)]]]];
    rewrite E; auto.
  - now rewrite saveToS3_ctx.
  - now rewrite (proj1 (processTranscriptEvent_frame t (session g))).
Qed.

Lemma step_shutdown_inv (l : Label) (g g' : System) :
  control_inv g -> shutdown_inv g -> step l g = Some g' -> shutdown_inv g'.
Proof.
  intros Hc [Ha Hb Hx Hs] H.
  pose proof (step_ctx l g g' H) as Hctx.
  pose proof (inv_start g Hc) as Hstart.
  destruct l as [[]|[]|[]]; step_inv H; constructor; simpl in *;
    rewrite ?saveToS3_ctx, ?(proj1 (processTranscriptEvent_frame _ _));
    try tauto; try congruence; try (intuition congruence).
Qed.

Lemma reachable_shutdown_inv (cfg : Config) (g : System) :
  reachable cfg g -> shutdown_inv g.
Proof.
  intros [ls H].
  cut (control_inv g /\ shutdown_inv g); [tauto|].
  apply (run_invariant (fun g => control_inv g /\ shutdown_inv g))
    with (ls := ls) (g := init cfg); [| |exact H].
  - intros l g0 g1 [Hc Hp] Hstep.
    split; [eapply step_control_inv|eapply step_shutdown_inv]; eassumption.
  - split; [apply init_control_inv|].
    constructor; simpl; try discriminate; intuition congruence.
Qed.

(** X12.  No state a session reaches after its stream has started is a dead
    end: the steps of [drain] can be taken from it one after the other and
    end the session, with [handleConnection] returned and no goroutine left
    running.  Beyond the end of the client connection, when the session is
    still in its read loop, these steps need no input.  At the wait on
    [doneChan] the session is not stuck either: the wait is passed exactly
    when the event task has ended, and as long as that task runs its exit
    through the cancelled context is enabled and opens the wait.

    This says what can happen, from every reachable state and so after any
    continuation whatever.  It does not say that every schedule ends the
    session: the [select] of the event task may go on taking events for as
    long as the recognition service delivers them, and the wait lasts as
    long. *)
Theorem session_can_end (cfg : Config) (g : System) (timestamp : string)
  (putErr : bool) :
  reachable cfg g ->
  mainPC g <> AtStart ->
  (exists g',
      run (drain timestamp putErr g) g = Some g'
      /\ mainPC g' = Returned
      /\ events g' <> Running
      /\ sender g' <> Running)
  /\ (mainPC g = AtWaitDone ->
       (step WaitDone g <> None <-> events g = Exited)
       /\ (events g <> Exited ->
            events g = Running
            /\ exists g1 g2,
                 step EventsCtxDone g = Some g1
                 /\ step WaitDone g1 = Some g2
                 /\ mainPC g2 = AtSave)).
Proof.
  intros Hr Hpc.
  destruct (reachable_inv cfg g Hr) as (_ & [_ _ _ Hd _ Hsv Hret] & _ & _).
  destruct (reachable_shutdown_inv cfg g Hr) as [Ha Hb Hx Hs].
  split.
  - destruct g as [s pc ev sd ch dn up]. simpl in *.
    unfold drain, eventsStop, senderStop. simpl mainPC. simpl events. simpl sender.
    destruct pc; try congruence;
      destruct ev; try (exfalso; apply Hs; congruence); try (exfalso; now apply Hret);
      destruct sd; cbn [running app];
      try rewrite (Hx eq_refl) in *;
      try rewrite (Hsv eq_refl) in *;
      try (assert (Hctx : ctx s = true)
            by first [solve [apply Ha; auto] | apply Hb; reflexivity]);
      repeat (cbn -[saveToS3 Nat.ltb];
              rewrite ?saveToS3_ctx, ?Hctx;
              try match goal with
                  | |- context [(0 <? ?n)%nat] => destruct (0 <? n)%nat
                  end);
      (eexists; split; [reflexivity|]; simpl; repeat split; try congruence).
    all: specialize (Hd eq_refl); discriminate.
  - intros Hw.
    assert (Hctx : ctx (session g) = true) by (apply Ha; auto).
    destruct g as [s pc ev sd ch dn up]. simpl in *. subst pc.
    split.
    + unfold step, handleConnection, guard, at_pc. simpl.
      destruct dn; split; intros H; try congruence; try discriminate.
      * now apply Hd.
      * specialize (Hx H). discriminate.
    + intros Hne.
      assert (Hev : ev = Running).
      { destruct ev; [exfalso; apply Hs; congruence|reflexivity|congruence]. }
      split; [exact Hev|]. subst ev.
      unfold step, handleTranscriptionEvents, handleConnection, guard, eventsExit,
        at_pc. simpl. rewrite Hctx. simpl.
      eexists. eexists. split; [reflexivity|]. split; reflexivity.
Qed.

Lemma session_can_end_witness :
  let trace : list Label :=
    [Main (StartStream false); Main (ReadBinary [Byte.x01] CaseSend);
     Events (EventsRecv (TranscriptEvent (Some (finalEvent "hello there"))));
     Main (ReadText (Some stopMessage)); Main CloseAudio; Main Cancel] in
  exists g g',
    run trace (init exampleConfig) = Some g
    /\ mainPC g = AtWaitDone
    /\ drain "2024-01-15_10-30-45" false g
       = [Events EventsCtxDone; Main WaitDone;
          Main (Save "2024-01-15_10-30-45" false); Sender SenderCtxDone]
    /\ run (drain "2024-01-15_10-30-45" false g) g = Some g'
    /\ mainPC g' = Returned
    /\ step WaitDone g = None.
Proof.
  intros trace.
  destruct (run trace (init exampleConfig)) as [g|] eqn:E; [|discriminate].
  destruct (session_can_end exampleConfig g "2024-01-15_10-30-45" false)
    as ((g' & Hrun & Hret & _) & _).
  - now exists trace.
  - vm_compute in E. injection E as <-. discriminate.
  - exists g, g'. split; [reflexivity|].
    split; [vm_compute in E; injection E as <-; reflexivity|].
    split; [vm_compute in E; injection E as <-; reflexivity|].
    split; [exact Hrun|]. split; [exact Hret|].
    vm_compute in E. injection E as <-. reflexivity.
Defined.

(* ================================================================== *)
(** ** Partial results                                                 *)
(* ================================================================== *)

Lemma checkDuplicate_same_segments (text : string) (s1 s2 : TranscriptionSession) :
  same_segments s1 s2 -> checkDuplicate text s1 = checkDuplicate text s2.
Proof.
  intros [Ht Hl]. unfold checkDuplicate. now rewrite Ht, Hl.
Qed.

Lemma processResult_same_segments (result : MedicalResult)
  (s1 s2 : TranscriptionSession) :
  same_segments s1 s2 ->
  same_segments (processResult result s1) (processResult result s2).
Proof.
  intros H. unfold processResult.
  destruct (Alternatives result) as [|alternative rest]; [exact H|].
  destruct (_ =? ""); [exact H|].
  destruct (IsPartial result); simpl negb; cbv iota; [exact H|].
  rewrite !processFinal_accept, (checkDuplicate_same_segments _ s1 s2 H).
  destruct (fst (checkDuplicate _ s2)); [exact H|].
  destruct H as [Ht Hl]. split; simpl; [now rewrite Ht|reflexivity].
Qed.

Lemma processResult_partial (result : MedicalResult) (s : TranscriptionSession) :
  IsPartial result = true -> same_segments (processResult result s) s.
Proof.
  intros Hp. unfold processResult, same_segments.
  destruct (Alternatives result) as [|alternative rest]; [auto|].
  destruct (_ =? ""); [auto|]. rewrite Hp. simpl. auto.
Qed.

(** X13.  What a session stores does not depend on the partial results: an
    event leaves the same segments and the same [lastTranscript] as the
    event with its partial results removed, and the final messages sent are
    the same. *)
Theorem partial_results_do_not_affect_segments (event : MedicalTranscript)
  (s : TranscriptionSession) :
  let finals := {| Results := filter (fun r => negb (IsPartial r)) (Results event) |} in
  transcripts (processTranscriptEvent event s)
  = transcripts (processTranscriptEvent finals s)
  /\ lastTranscript (processTranscriptEvent event s)
     = lastTranscript (processTranscriptEvent finals s)
  /\ filter is_final (conn (processTranscriptEvent event s))
     = filter is_final (conn (processTranscriptEvent finals s)).
Proof.
  cbv zeta. unfold processTranscriptEvent. cbn [Results].
  cut (forall rs s1 s2,
          same_segments s1 s2 ->
          filter is_final (conn s1) = filter is_final (conn s2) ->
          same_segments
            (fold_left (fun s r => processResult r s) rs s1)
            (fold_left (fun s r => processResult r s)
               (filter (fun r => negb (IsPartial r)) rs) s2)
          /\ filter is_final (conn (fold_left (fun s r => processResult r s) rs s1))
             = filter is_final
                 (conn (fold_left (fun s r => processResult r s)
                          (filter (fun r => negb (IsPartial r)) rs) s2))).
  { intros H. destruct (H (Results event) s s) as [[Ht Hl] Hc];
      [split; reflexivity|reflexivity|auto]. }
  induction rs as [|r rs IH]; intros s1 s2 Hs Hc; [auto|].
  cbn [fold_left filter].
  assert (Hstep : forall sa sb,
             same_segments sa sb ->
             filter is_final (conn sa) = filter is_final (conn sb) ->
             filter is_final (conn (processResult r sa))
             = filter is_final (conn (processResult r sb))).
  { intros sa sb Hab Hcab. unfold processResult.
    destruct (Alternatives r) as [|alternative rest]; [exact Hcab|].
    destruct (_ =? ""); [exact Hcab|].
    destruct (IsPartial r); simpl negb; cbv iota.
    - simpl. rewrite !filter_app, Hcab. reflexivity.
    - rewrite !processFinal_accept, (checkDuplicate_same_segments _ sa sb Hab).
      destruct (fst (checkDuplicate _ sb)); [exact Hcab|].
      simpl. rewrite !filter_app, Hcab. reflexivity. }
  destruct (IsPartial r) eqn:Hp; cbn [negb].
  - apply IH.
    + destruct (processResult_partial r s1 Hp) as [Ht Hl].
      destruct Hs as [Ht' Hl']. split; congruence.
    + rewrite <- Hc. unfold processResult.
      destruct (Alternatives r) as [|alternative rest]; [reflexivity|].
      destruct (_ =? ""); [reflexivity|]. rewrite Hp. simpl.
      rewrite filter_app. simpl. now rewrite app_nil_r.
  - cbn [fold_left]. apply IH.
    + now apply processResult_same_segments.
    + now apply Hstep.
Qed.
